(** * pkg/apply/desiredset_process.go: the per-kind reconciliation core

    A shallow embedding of [desiredset_process.go] (package [apply] of
    wrangler) and the properties of its set differ, cross-version filter
    and execution pipeline.

    Go maps are finite maps ([gmap]); [runtime.Object] values are immutable
    values, so [DeepCopyObject] is the identity; the remote store, the plan
    and the error sink are threaded explicitly through a state record. *)

From Stdlib Require Import Strings.String Strings.Ascii.
From stdpp Require Import base option list strings gmap fin_maps sorting.

Local Open Scope string_scope.
Local Open Scope list_scope.

(** ** Data model *)

(** [objectset.ObjectKey]. *)
Record ObjectKey := { Namespace : string; Name : string }.

#[global] Instance ObjectKey_eq_dec : EqDecision ObjectKey.
Proof. solve_decision. Defined.

#[global] Instance ObjectKey_countable : Countable ObjectKey.
Proof.
  refine (inj_countable'
            (fun k => (Namespace k, Name k))
            (fun p => {| Namespace := p.1; Name := p.2 |}) _).
  by intros [].
Defined.

(** [schema.GroupVersionKind] and [schema.GroupKind]. *)
Record GroupVersionKind := { Group : string; Version : string; Kind : string }.
Record GroupKind := { gk_Group : string; gk_Kind : string }.

#[global] Instance GroupVersionKind_eq_dec : EqDecision GroupVersionKind.
Proof. solve_decision. Defined.

#[global] Instance GroupKind_eq_dec : EqDecision GroupKind.
Proof. solve_decision. Defined.

#[global] Instance GroupVersionKind_countable : Countable GroupVersionKind.
Proof.
  refine (inj_countable'
            (fun g => (Group g, Version g, Kind g))
            (fun p => {| Group := p.1.1; Version := p.1.2; Kind := p.2 |}) _).
  by intros [].
Defined.

(** [gvk.GroupKind()]: the version is dropped. *)
Definition GVK_GroupKind (gvk : GroupVersionKind) : GroupKind :=
  {| gk_Group := Group gvk; gk_Kind := Kind gvk |}.

(** [metav1.OwnerReference]. *)
Record OwnerReference := {
  or_APIVersion : string;
  or_Kind : string;
  or_Name : string;
  or_UID : string;
  or_Controller : bool;
  or_BlockOwnerDeletion : bool
}.

(** What [meta.Accessor] exposes of an object; the fields are named after
    the getters of [metav1.Object]. *)
Record ObjectMeta := {
  GetNamespace : string;
  GetName : string;
  GetUID : string;
  GetLabels : gmap string string;
  GetOwnerReferences : list OwnerReference
}.

(** A [runtime.Object]: either it carries object metadata, or it is a value
    on which [meta.Accessor] fails. *)
Inductive Object :=
| MetaObject (m : ObjectMeta) (content : string)
| BareObject (content : string).

(** [objectset.ObjectByKey]. *)
Abbreviation ObjectByKey := (gmap ObjectKey Object).

(** The places where this file builds an error message. *)
Inductive ErrContext :=
| FailedInformer (gvk : GroupVersionKind) (debugID : string)
| FailedFindInformer (gvk : GroupVersionKind) (debugID : string)
| FailedList (gvk : GroupVersionKind) (debugID : string)
| FailedPrepareCreate (k : ObjectKey) (gvk : GroupVersionKind) (debugID : string)
| FailedCreate (k : ObjectKey) (gvk : GroupVersionKind) (debugID : string)
| FailedDelete (k : ObjectKey) (gvk : GroupVersionKind) (debugID : string)
| FailedUpdate (k : ObjectKey) (gvk : GroupVersionKind) (debugID : string).

(** Go [error] values.  [nil] is [None] of [option error]. *)
#[warnings="-register-all"] Inductive error :=
| ErrReplace
| ErrNoInformerFound
| ErrNotObject
| ErrNoOwner
| ErrInvalidClusterScoped (gvk : GroupVersionKind)
| ErrReplaceWait (gvk : GroupVersionKind) (k : ObjectKey) (debugID : string)
| ErrExternal (reason : string)
| ErrWrap (cause : error) (ctx : ErrContext)
| ErrMulti (errs : list error).

(** [err == ErrReplace]. *)
Definition is_ErrReplace (e : error) : bool :=
  match e with ErrReplace => true | _ => false end.

(** [x == nil]. *)
Definition is_nil {A} (x : option A) : bool :=
  match x with None => true | Some _ => false end.

(** [meta.Accessor]. *)
Definition meta_Accessor (obj : Object) : error + ObjectMeta :=
  match obj with
  | MetaObject m _ => inr m
  | BareObject _ => inl ErrNotObject
  end.

Definition SetNamespace (ns : string) (obj : Object) : Object :=
  match obj with
  | MetaObject m c =>
      MetaObject {| GetNamespace := ns; GetName := GetName m; GetUID := GetUID m;
                    GetLabels := GetLabels m;
                    GetOwnerReferences := GetOwnerReferences m |} c
  | BareObject c => BareObject c
  end.

Definition SetOwnerReferences (refs : list OwnerReference) (obj : Object) : Object :=
  match obj with
  | MetaObject m c =>
      MetaObject {| GetNamespace := GetNamespace m; GetName := GetName m;
                    GetUID := GetUID m; GetLabels := GetLabels m;
                    GetOwnerReferences := refs |} c
  | BareObject c => BareObject c
  end.

(** Package constants and key rendering that live in other files of the
    repository: the prune label and [ObjectKey.String]. *)
Class KeyAPI := {
  LabelPrune : string;
  ObjectKey_String : ObjectKey -> string
}.

(** ** Set differ *)

Section SetDiffer.
Context `{KeyAPI}.

(** Reading a Go [map[string]string] at a missing key gives [""]. *)
Definition label (m : ObjectMeta) (l : string) : string :=
  default "" (GetLabels m !! l).

Definition shouldPrune (obj : Object) : bool :=
  match meta_Accessor obj with
  | inl _ => true
  | inr m => bool_decide (label m LabelPrune <> "false")
  end.

(** The [less] closure of [sortObjectKeys]. *)
Definition key_less (a b : ObjectKey) : bool :=
  String.ltb (ObjectKey_String a) (ObjectKey_String b).

(** [sort.Slice], as a merge sort: the slice is rearranged so that no
    element is [less] than one before it. *)
Definition not_after {A} (less : A -> A -> bool) (x y : A) : Prop :=
  less y x = false.

#[global] Instance not_after_dec {A} (less : A -> A -> bool) x y :
  Decision (not_after less x y).
Proof. unfold not_after. apply _. Defined.

Definition sort_Slice {A} (less : A -> A -> bool) (l : list A) : list A :=
  merge_sort (not_after less) l.

Definition sortObjectKeys (keys : list ObjectKey) : list ObjectKey :=
  sort_Slice key_less keys.

(** The first loop of [compareSets], over [newSet].  Go leaves the order of
    [range] over a map open; [map_to_list] fixes one, and the sort that
    follows makes the outputs independent of it wherever the rendered keys
    are distinct. *)
Definition splitNew (existingSet newSet : ObjectByKey)
  : list ObjectKey * list ObjectKey :=
  foldl (fun '(toCreate, toUpdate) '(k, _) =>
           match existingSet !! k with
           | Some _ => (toCreate, toUpdate ++ [k])
           | None => (toCreate ++ [k], toUpdate)
           end)
        ([], []) (map_to_list newSet).

(** The second loop of [compareSets], over [existingSet]. *)
Definition pruneCandidates (existingSet newSet : ObjectByKey) : list ObjectKey :=
  foldl (fun toDelete '(k, obj) =>
           match newSet !! k with
           | Some _ => toDelete
           | None => if shouldPrune obj then toDelete ++ [k] else toDelete
           end)
        [] (map_to_list existingSet).

(** Returns [(toCreate, toDelete, toUpdate)]. *)
Definition compareSets (existingSet newSet : ObjectByKey)
  : list ObjectKey * list ObjectKey * list ObjectKey :=
  let '(toCreate, toUpdate) := splitNew existingSet newSet in
  let toDelete := pruneCandidates existingSet newSet in
  (sortObjectKeys toCreate, sortObjectKeys toDelete, sortObjectKeys toUpdate).

End SetDiffer.

(** ** The surrounding system *)

(** [schema.GroupVersionResource] and [types.PatchType]. *)
Record GroupVersionResource := {
  gvr_Group : string; gvr_Version : string; gvr_Resource : string
}.
Definition PatchType : Type := string.

(** Opaque handles owned by the surrounding system. *)
Class World := {
  (** the remote object store together with the informer caches *)
  Store : Type;
  (** [dynamic.NamespaceableResourceInterface] *)
  Client : Type;
  (** [cache.SharedIndexInformer] *)
  Informer : Type;
  InformerFactory : Type;
  (** [labels.Selector] *)
  Selector : Type
}.

(** Modelled from the spec: the plan accumulator, whose type is declared
    outside this file.  Create and Delete map a kind to an ordered key
    list; Update is a flat list of (kind, namespace, name, patch body)
    records to which [Add] appends. *)
Record PlanUpdate := {
  pu_gvk : GroupVersionKind;
  pu_namespace : string;
  pu_name : string;
  pu_patch : string
}.

Record Plan := {
  plan_Create : gmap GroupVersionKind (list ObjectKey);
  plan_Delete : gmap GroupVersionKind (list ObjectKey);
  plan_Update : list PlanUpdate
}.

Definition plan_Update_Add (gvk : GroupVersionKind) (namespace name patch : string)
    (p : Plan) : Plan :=
  {| plan_Create := plan_Create p;
     plan_Delete := plan_Delete p;
     plan_Update := plan_Update p ++
       [{| pu_gvk := gvk; pu_namespace := namespace;
           pu_name := name; pu_patch := patch |}] |}.

(** Modelled from the spec: the overall multi-kind desired object
    collection [o.objs], whose type is declared outside this file, as the
    desired objects of every kind and version; [Contains] looks a key up
    under a group and kind, whatever the version. *)
Abbreviation ObjectSet := (gmap GroupVersionKind ObjectByKey).

Definition ObjectSet_Contains (objs : ObjectSet) (gk : GroupKind) (key : ObjectKey)
    : bool :=
  existsb (fun '(gvk, byKey) =>
             bool_decide (GVK_GroupKind gvk = gk) && bool_decide (is_Some (byKey !! key)))
          (map_to_list objs).

(** Modelled from the spec: [ObjectByKey.Namespaces], declared outside this
    file: the namespaces appearing in the object set. *)
Definition ObjectByKey_Namespaces (objs : ObjectByKey) : list string :=
  remove_dups (Namespace <$> (map_to_list objs).*1).

(** Modelled from the spec: [merr.NewErrors], declared outside this file:
    the aggregate of the collected errors, [nil] when there is none. *)
Definition merr_NewErrors (errs : list error) : option error :=
  match errs with
  | [] => None
  | _ => Some (ErrMulti errs)
  end.

(** [GroupVersion.String]. *)
Definition GroupVersion_String (gvk : GroupVersionKind) : string :=
  if bool_decide (Group gvk = "") then Version gvk
  else Group gvk +:+ "/" +:+ Version gvk.

Section Desired.
Context `{World}.

(** The mutable part of a run: the store, and the plan and accumulated
    errors of the desired set. *)
Record State := {
  store : Store;
  plan : Plan;
  errs : list error
}.

Definition set_store (st : Store) (s : State) : State :=
  {| store := st; plan := plan s; errs := errs s |}.

Definition set_plan (p : Plan) (s : State) : State :=
  {| store := store s; plan := p; errs := errs s |}.

(** Modelled from the spec: the error sink [o.err], defined outside this
    file: accepts one error at a time and accumulates it. *)
Definition o_err (e : error) (s : State) : State :=
  {| store := store s; plan := plan s; errs := errs s ++ [e] |}.

Definition Patcher : Type :=
  string -> string -> PatchType -> string -> State -> (option Object * option error) * State.

Definition Reconciler : Type :=
  option Object -> option Object -> State -> (bool * option error) * State.

(** The configuration fields of [desiredSet] (and of its [apply]) that
    this file reads. *)
Record desiredSet := {
  a_informers : gmap GroupVersionKind Informer;
  owner : option Object;
  setOwnerReference : bool;
  ownerReferenceController : bool;
  ownerReferenceBlock : bool;
  defaultNamespace : string;
  listerNamespace : string;
  strictCaching : bool;
  restrictClusterScoped : bool;
  pruneTypes : gmap GroupVersionKind (option Informer);
  patchers : gmap GroupVersionKind Patcher;
  reconcilers : gmap GroupVersionKind Reconciler;
  informerFactory : option InformerFactory;
  objs : ObjectSet;
  createPlan : bool
}.

(** The collaborators this file calls and does not define. *)
Class Collaborators := {
  clients_client : GroupVersionKind -> error + Client;
  clients_gvr : GroupVersionKind -> GroupVersionResource;
  clients_IsNamespaced : GroupVersionKind -> error + bool;
  informerFactory_Get :
    InformerFactory -> GroupVersionKind -> GroupVersionResource -> error + option Informer;
  gvk_Get : Object -> error + GroupVersionKind;
  IsAlreadyExists : error -> bool;
  prepareObjectForCreate : GroupVersionKind -> option Object -> error + Object;
  sanitizePatch : string -> bool -> error + string;
  o_create :
    desiredSet -> bool -> string -> Client -> Object -> Store -> (error + Object) * Store;
  o_get : desiredSet -> bool -> string -> string -> Client -> Store -> error + Object;
  o_delete :
    desiredSet -> bool -> string -> string -> Client -> bool -> GroupVersionKind ->
    Store -> option error * Store;
  (** [client.List] ([None]) and [client.Namespace(ns).List] ([Some ns]) *)
  client_List : Client -> option string -> Selector -> Store -> error + list Object;
  (** [client.Patch] ([None]) and [client.Namespace(ns).Patch] ([Some ns]) *)
  client_Patch :
    Client -> option string -> string -> PatchType -> string -> Store ->
    (error + Object) * Store;
  (** the objects [cache.ListAllByNamespace] hands to its callback, and
      the error it returns *)
  cache_ListAllByNamespace :
    Informer -> string -> Selector -> Store -> list Object * option error;
  compareObjects :
    desiredSet -> GroupVersionKind -> option Reconciler -> Patcher -> Client -> string ->
    option Object -> option Object -> bool -> State -> option error * State
}.

End Desired.

(** ** Client lookup and normalizer *)

Section Process.
Context `{World} `{!KeyAPI} `{!Collaborators}.

Definition getControllerAndClient (o : desiredSet) (debugID : string)
    (gvk : GroupVersionKind) : error + (option Informer * Client) :=
  (* client needs to be accessed first so that the gvk->gvr mapping gets cached *)
  match clients_client gvk with
  | inl err => inl err
  | inr client =>
      let informer :=
        match pruneTypes o !! gvk with
        | Some informer => informer
        | None => a_informers o !! gvk
        end in
      let withFactory :=
        match informer, informerFactory o with
        | None, Some factory =>
            match informerFactory_Get factory gvk (clients_gvr gvk) with
            | inl err => inl (ErrWrap err (FailedInformer gvk debugID))
            | inr newInformer => inr newInformer
            end
        | _, _ => inr informer
        end in
      match withFactory with
      | inl err => inl err
      | inr informer =>
          if is_nil informer && strictCaching o
          then inl (ErrWrap ErrNoInformerFound (FailedFindInformer gvk debugID))
          else inr (informer, client)
      end
  end.

(** [for k, v := range objs] over a map that the body re-keys: the keys
    present when the loop starts are visited, each with the value the map
    holds for it at that time; a key the body has deleted in the meantime
    is not visited, and the first error ends the loop. *)
Definition rangeMut (body : ObjectKey -> Object -> ObjectByKey -> error + ObjectByKey)
    (objs : ObjectByKey) : error + ObjectByKey :=
  foldl (fun acc k =>
           match acc with
           | inl err => inl err
           | inr m =>
               match m !! k with
               | Some v => body k v m
               | None => inr m
               end
           end)
        (inr objs) (map_to_list objs).*1.

Definition newOwnerReference (o : desiredSet) (ownerGVK : GroupVersionKind)
    (ownerMeta : ObjectMeta) : OwnerReference :=
  {| or_APIVersion := GroupVersion_String ownerGVK;
     or_Kind := Kind ownerGVK;
     or_Name := GetName ownerMeta;
     or_UID := GetUID ownerMeta;
     or_Controller := ownerReferenceController o;
     or_BlockOwnerDeletion := ownerReferenceBlock o |}.

(** The loop body of [assignOwnerReference]. *)
Definition assignOwnerReference_body (o : desiredSet) (gvk ownerGVK : GroupVersionKind)
    (ownerMeta : ObjectMeta) (ownerNSed : bool)
    (k : ObjectKey) (v : Object) (objs : ObjectByKey) : error + ObjectByKey :=
  let assign :=
    match clients_IsNamespaced gvk with
    | inl err => inl err
    | inr nsed =>
        let assignNS := nsed && bool_decide (Namespace k = "") in
        let assignOwner :=
          negb (nsed && bool_decide (Namespace k <> "")
                && bool_decide (Namespace k <> GetNamespace ownerMeta) && ownerNSed) in
        if negb assignOwner then inr objs else
        match meta_Accessor v with
        | inl err => inl err
        | inr meta =>
            let v := if assignNS then SetNamespace (GetNamespace ownerMeta) v else v in
            let shouldSet :=
              negb (existsb (fun ref => bool_decide (GetUID ownerMeta = or_UID ref))
                            (GetOwnerReferences meta)) in
            let v :=
              if shouldSet
              then SetOwnerReferences
                     (GetOwnerReferences meta ++ [newOwnerReference o ownerGVK ownerMeta]) v
              else v in
            let objs := <[k := v]> objs in
            if assignNS
            then inr (<[ {| Namespace := GetNamespace ownerMeta; Name := Name k |} := v ]>
                        (delete k objs))
            else inr objs
        end
    end in
  (* can't set owners across boundaries *)
  if ownerNSed then
    match clients_IsNamespaced gvk with
    | inl err => inl err
    | inr false => inr objs
    | inr true => assign
    end
  else assign.

Definition assignOwnerReference (o : desiredSet) (gvk : GroupVersionKind)
    (objs : ObjectByKey) : error + ObjectByKey :=
  match owner o with
  | None => inl ErrNoOwner
  | Some own =>
      match meta_Accessor own with
      | inl err => inl err
      | inr ownerMeta =>
          match gvk_Get own with
          | inl err => inl err
          | inr ownerGVK =>
              match clients_IsNamespaced ownerGVK with
              | inl err => inl err
              | inr ownerNSed =>
                  rangeMut (assignOwnerReference_body o gvk ownerGVK ownerMeta ownerNSed)
                           objs
              end
          end
      end
  end.

Definition adjustNamespace (o : desiredSet) (gvk : GroupVersionKind)
    (objs : ObjectByKey) : error + ObjectByKey :=
  rangeMut (fun k v objs =>
              if bool_decide (Namespace k <> "") then inr objs else
              match meta_Accessor v with
              | inl err => inl err
              | inr _ =>
                  let v := SetNamespace (defaultNamespace o) v in
                  inr (<[ {| Namespace := defaultNamespace o; Name := Name k |} := v ]>
                         (delete k objs))
              end)
           objs.

Definition clearNamespace (o : desiredSet) (objs : ObjectByKey)
    : error + ObjectByKey :=
  rangeMut (fun k v objs =>
              if bool_decide (Namespace k = "") then inr objs else
              match meta_Accessor v with
              | inl err => inl err
              | inr _ =>
                  let v := SetNamespace "" v in
                  inr (<[ {| Namespace := ""; Name := Name k |} := v ]> (delete k objs))
              end)
           objs.

Definition lift_store {A} (r : (error + A) * Store) (s : State)
    : (option A * option error) * State :=
  match r with
  | (inl err, st) => ((None, Some err), set_store st s)
  | (inr a, st) => ((Some a, None), set_store st s)
  end.

Definition createPatcher (o : desiredSet) (client : Client) : Patcher :=
  fun namespace name pt data s =>
    if bool_decide (namespace <> "")
    then lift_store (client_Patch client (Some namespace) name pt data (store s)) s
    else lift_store (client_Patch client None name pt data (store s)) s.

(** ** Cross-version filter *)

Definition filterCrossVersion (o : desiredSet) (gvk : GroupVersionKind)
    (keys : list ObjectKey) : list ObjectKey :=
  let gk := GVK_GroupKind gvk in
  foldl (fun result key =>
           if ObjectSet_Contains (objs o) gk key then result
           else if bool_decide (Namespace key = defaultNamespace o)
                   && ObjectSet_Contains (objs o) gk {| Namespace := ""; Name := Name key |}
           then result
           else result ++ [key])
        [] keys.

(** ** State lister *)

Definition addObjectToMap (objs : ObjectByKey) (obj : Object)
    : ObjectByKey * option error :=
  match meta_Accessor obj with
  | inl err => (objs, Some err)
  | inr metadata =>
      (<[ {| Namespace := GetNamespace metadata; Name := GetName metadata |} := obj ]> objs,
       None)
  end.

(** [allNamespaceList] lists objects across all namespaces. *)
Definition allNamespaceList {A} (baseClient : Client) (selector : Selector)
    (appendFn : Object -> A -> A) (acc : A) (st : Store) : A * option error :=
  match client_List baseClient None selector st with
  | inl err => (acc, Some err)
  | inr items => (foldl (flip appendFn) acc items, None)
  end.

(** [multiNamespaceList] lists objects across all given namespaces.  The
    goroutines are run as the schedule in which the namespaces are served
    in order and every call completes: the objects of each successful
    call are appended, and [wg.Wait] returns the first error. *)
Definition multiNamespaceList {A} (namespaces : list string) (baseClient : Client)
    (selector : Selector) (appendFn : Object -> A -> A) (acc : A) (st : Store)
    : A * option error :=
  foldl (fun '(acc, first) namespace =>
           match client_List baseClient (Some namespace) selector st with
           | inl err => (acc, match first with Some _ => first | None => Some err end)
           | inr items => (foldl (flip appendFn) acc items, first)
           end)
        (acc, None) namespaces.

(** The callback that [list] passes to the listing functions; it updates
    the captured [objs] and [errs]. *)
Definition list_appendFn (obj : Object) (acc : ObjectByKey * list error)
    : ObjectByKey * list error :=
  match addObjectToMap acc.1 obj with
  | (objs, Some err) => (objs, acc.2 ++ [err])
  | (objs, None) => (objs, acc.2)
  end.

Definition append_err (errs : list error) (err : option error) : list error :=
  match err with
  | Some err => errs ++ [err]
  | None => errs
  end.

(** [(o *desiredSet) list]. *)
Definition desiredSet_list (o : desiredSet) (namespaced : bool)
    (informer : option Informer) (client : Client) (selector : Selector)
    (desiredObjects : ObjectByKey) (st : Store) : ObjectByKey * option error :=
  match informer with
  | None =>
      let namespaces :=
        if bool_decide (listerNamespace o <> "") then [listerNamespace o]
        else ObjectByKey_Namespaces desiredObjects in
      let '((objs, errs), err) :=
        if negb (is_nil (owner o)) && bool_decide (listerNamespace o = "")
        then (* owner set and unspecified lister namespace, search all namespaces *)
          allNamespaceList client selector list_appendFn (∅, []) st
        else (* no owner or lister namespace intentionally restricted *)
          multiNamespaceList namespaces client selector list_appendFn (∅, []) st in
      (objs, merr_NewErrors (append_err errs err))
  | Some informer =>
      let namespace := if namespaced then listerNamespace o else "" in
      let '(items, err) := cache_ListAllByNamespace informer namespace selector st in
      let '(objs, errs) := foldl (flip list_appendFn) (∅, []) items in
      (objs, merr_NewErrors (append_err errs err))
  end.

(** ** Execution pipeline *)

(** The recording patcher of plan mode. *)
Definition planPatcher (gvk : GroupVersionKind) : Patcher :=
  fun namespace name pt data s =>
    match sanitizePatch data true with
    | inl err => ((None, Some err), s)
    | inr data =>
        if bool_decide (data <> "{}")
        then ((None, None), set_plan (plan_Update_Add gvk namespace name data (plan s)) s)
        else ((None, None), s)
    end.

(** The local variables of [process] that [createF] assigns. *)
Record Work := {
  toUpdate : list ObjectKey;
  existing : ObjectByKey
}.

Definition createF (o : desiredSet) (debugID : string) (gvk : GroupVersionKind)
    (nsed : bool) (client : Client) (objs : ObjectByKey)
    (k : ObjectKey) (ws : Work * State) : Work * State :=
  let '(w, s) := ws in
  match prepareObjectForCreate gvk (objs !! k) with
  | inl err => (w, o_err (ErrWrap err (FailedPrepareCreate k gvk debugID)) s)
  | inr obj =>
      let '(r, st) := o_create o nsed (Namespace k) client obj (store s) in
      let s := set_store st s in
      match r with
      | inr _ => (w, s)
      | inl err =>
          let failed := (w, o_err (ErrWrap err (FailedCreate k gvk debugID)) s) in
          if IsAlreadyExists err then
            (* Taking over an object that wasn't previously managed by us *)
            match o_get o nsed (Namespace k) (Name k) client (store s) with
            | inr existingObj =>
                ({| toUpdate := toUpdate w ++ [k];
                    existing := <[k := existingObj]> (existing w) |}, s)
            | inl _ => failed
            end
          else failed
      end
  end.

Definition deleteF (o : desiredSet) (debugID : string) (gvk : GroupVersionKind)
    (nsed : bool) (client : Client) (k : ObjectKey) (force : bool) (s : State) : State :=
  let '(err, st) := o_delete o nsed (Namespace k) (Name k) client force gvk (store s) in
  let s := set_store st s in
  match err with
  | Some err => o_err (ErrWrap err (FailedDelete k gvk debugID)) s
  | None => s
  end.

(** [pending] is [len(toCreate) > 0 || len(toDelete) > 0]. *)
Definition updateF (o : desiredSet) (debugID : string) (gvk : GroupVersionKind)
    (nsed : bool) (client : Client) (reconciler : option Reconciler) (patcher : Patcher)
    (objs existing : ObjectByKey) (pending : bool) (k : ObjectKey) (s : State) : State :=
  let '(err, s) :=
    compareObjects o gvk reconciler patcher client debugID
                   (existing !! k) (objs !! k) pending s in
  match err with
  | Some err =>
      if is_ErrReplace err
      then o_err (ErrReplaceWait gvk k debugID) (deleteF o debugID gvk nsed client k true s)
      else o_err (ErrWrap err (FailedUpdate k gvk debugID)) s
  | None => s
  end.

Definition nonempty {A} (l : list A) : bool :=
  match l with [] => false | _ => true end.

(** The three loops that end [process]. *)
Definition runPhases (o : desiredSet) (debugID : string) (gvk : GroupVersionKind)
    (nsed : bool) (client : Client) (reconciler : option Reconciler) (patcher : Patcher)
    (objs : ObjectByKey) (toCreate toDelete : list ObjectKey) (ws : Work * State)
    : State :=
  let '(w, s) := foldl (fun ws k => createF o debugID gvk nsed client objs k ws) ws toCreate in
  let s :=
    foldl (fun s k =>
             updateF o debugID gvk nsed client reconciler patcher objs (existing w)
                     (nonempty toCreate || nonempty toDelete) k s)
          s (toUpdate w) in
  foldl (fun s k => deleteF o debugID gvk nsed client k false s) s toDelete.

Definition plan_set_Create_Delete (gvk : GroupVersionKind)
    (toCreate toDelete : list ObjectKey) (p : Plan) : Plan :=
  {| plan_Create := <[gvk := toCreate]> (plan_Create p);
     plan_Delete := <[gvk := toDelete]> (plan_Delete p);
     plan_Update := plan_Update p |}.

(** [process] from the comparison of the sets onwards, given the listed
    [existing] objects. *)
Definition processExisting (o : desiredSet) (debugID : string) (gvk : GroupVersionKind)
    (nsed : bool) (client : Client) (reconciler : option Reconciler) (patcher : Patcher)
    (objs existing : ObjectByKey) (s : State) : State :=
  let '(toCreate, toDelete, toUpdate) := compareSets existing objs in
  (* check for resources in the objectset but under a different version of
     the same group/kind *)
  let toDelete := filterCrossVersion o gvk toDelete in
  let w := {| toUpdate := toUpdate; existing := existing |} in
  if createPlan o then
    let s := set_plan (plan_set_Create_Delete gvk toCreate toDelete (plan s)) s in
    runPhases o debugID gvk nsed client None (planPatcher gvk) objs [] [] (w, s)
  else
    runPhases o debugID gvk nsed client reconciler patcher objs toCreate toDelete (w, s).

Definition process (o : desiredSet) (debugID : string) (set : Selector)
    (gvk : GroupVersionKind) (objs : ObjectByKey) (s : State) : State :=
  match getControllerAndClient o debugID gvk with
  | inl err => o_err err s
  | inr (controller, client) =>
  match clients_IsNamespaced gvk with
  | inl err => o_err err s
  | inr nsed =>
  if negb nsed && restrictClusterScoped o
  then o_err (ErrInvalidClusterScoped gvk) s else
  match (if setOwnerReference o && negb (is_nil (owner o))
         then assignOwnerReference o gvk objs else inr objs) with
  | inl err => o_err err s
  | inr objs =>
  match (if nsed then adjustNamespace o gvk objs else clearNamespace o objs) with
  | inl err => o_err err s
  | inr objs =>
      let patcher :=
        match patchers o !! gvk with
        | Some patcher => patcher
        | None => createPatcher o client
        end in
      let reconciler := reconcilers o !! gvk in
      match desiredSet_list o nsed controller client set objs (store s) with
      | (_, Some err) => o_err (ErrWrap err (FailedList gvk debugID)) s
      | (existing, None) =>
          processExisting o debugID gvk nsed client reconciler patcher objs existing s
      end
  end end end end.

End Process.

(** [ReplaceOnChange]: the package-level update function that always asks
    for a replacement. *)
Definition ReplaceOnChange (name : string) (o : Object) (patchType : PatchType)
    (data : string) (subresources : list string) : option Object * option error :=
  (None, Some ErrReplace).

(** ** An in-memory store

    A small instance of the collaborators, in the manner of a fake client:
    the store is the list of the objects of one resource.  Listing or reading
    the namespace ["locked"] is refused. *)
Module Fixture.

Definition world : World :=
  {| Store := list Object; Client := unit; Informer := unit;
     InformerFactory := unit; Selector := unit |}.

Definition keyAPI : KeyAPI :=
  {| LabelPrune := "objectset.rio.cattle.io/prune";
     ObjectKey_String k := Namespace k +:+ "/" +:+ Name k |}.

Definition has_key (ns name : string) (obj : Object) : bool :=
  match meta_Accessor obj with
  | inr m => bool_decide (GetNamespace m = ns) && bool_decide (GetName m = name)
  | inl _ => false
  end.

Definition in_namespace (ns : string) (obj : Object) : bool :=
  match meta_Accessor obj with
  | inr m => bool_decide (GetNamespace m = ns)
  | inl _ => false
  end.

Definition set_content (data : string) (obj : Object) : Object :=
  match obj with
  | MetaObject m _ => MetaObject m data
  | BareObject _ => BareObject data
  end.

Definition content (obj : Object) : string :=
  match obj with
  | MetaObject _ c => c
  | BareObject c => c
  end.

Definition mem_create (obj : Object) (st : list Object)
    : (error + Object) * list Object :=
  match meta_Accessor obj with
  | inl err => (inl err, st)
  | inr m =>
      if existsb (has_key (GetNamespace m) (GetName m)) st
      then (inl (ErrExternal "AlreadyExists"), st)
      else (inr obj, st ++ [obj])
  end.

Definition mem_get (ns name : string) (st : list Object) : error + Object :=
  if bool_decide (ns = "locked") then inl (ErrExternal "Forbidden") else
  match filter (fun obj => has_key ns name obj = true) st with
  | obj :: _ => inr obj
  | [] => inl (ErrExternal "NotFound")
  end.

Definition mem_delete (ns name : string) (st : list Object)
    : option error * list Object :=
  (None, filter (fun obj => has_key ns name obj = false) st).

Definition mem_list (ns : option string) (st : list Object) : error + list Object :=
  match ns with
  | None => inr st
  | Some ns =>
      if bool_decide (ns = "locked") then inl (ErrExternal "Forbidden")
      else inr (filter (fun obj => in_namespace ns obj = true) st)
  end.

Definition mem_patch (ns : option string) (name data : string) (st : list Object)
    : (error + Object) * list Object :=
  let ns := default "" ns in
  match filter (fun obj => has_key ns name obj = true) st with
  | obj :: _ =>
      (inr (set_content data obj),
       (fun o => if has_key ns name o then set_content data o else o) <$> st)
  | [] => (inl (ErrExternal "NotFound"), st)
  end.

(** The comparison step of the fixture: nothing to do when the contents
    agree; otherwise the reconciler, when there is one, is asked first, and
    the patcher is handed the desired content. *)
Definition mem_compareObjects (reconciler : option (@Reconciler world))
    (patcher : @Patcher world) (old new : option Object) (s : @State world)
    : option error * @State world :=
  match old, new with
  | Some (MetaObject m c), Some newObj =>
      if bool_decide (c = content newObj) then (None, s) else
      let patch := fun s => let '((_, err), s) := patcher (GetNamespace m) (GetName m)
                                 "application/merge-patch+json" (content newObj) s in
                            (err, s) in
      match reconciler with
      | Some r =>
          match r old new s with
          | ((_, Some err), s) => (Some err, s)
          | ((true, None), s) => (None, s)
          | ((false, None), s) => patch s
          end
      | None => patch s
      end
  | _, _ => (Some ErrNotObject, s)
  end.

Definition mem_client (gvk : GroupVersionKind) : error + @Client world := inr tt.

Definition mem_informer (f : @InformerFactory world) (gvk : GroupVersionKind)
    (gvr : GroupVersionResource) : error + option (@Informer world) :=
  inr (Some tt).

Definition mem_cache_list (ns : string) (st : list Object)
    : list Object * option error :=
  (if bool_decide (ns = "") then st
   else filter (fun obj => in_namespace ns obj = true) st, None).

Definition mem_IsAlreadyExists (err : error) : bool :=
  match err with
  | ErrExternal reason => bool_decide (reason = "AlreadyExists")
  | _ => false
  end.

Definition mem_prepare (obj : option Object) : error + Object :=
  match obj with
  | Some obj => inr obj
  | None => inl (ErrExternal "nil object")
  end.

Definition collaborators : @Collaborators world :=
  @Build_Collaborators world
    (* clients_client *) mem_client
    (* clients_gvr *)
    (fun gvk =>
       {| gvr_Group := Group gvk; gvr_Version := Version gvk; gvr_Resource := Kind gvk |})
    (* clients_IsNamespaced *) (fun gvk => inr (bool_decide (Kind gvk <> "Namespace")))
    (* informerFactory_Get *) mem_informer
    (* gvk_Get *) (fun _ => inr {| Group := ""; Version := "v1"; Kind := "ConfigMap" |})
    (* IsAlreadyExists *) mem_IsAlreadyExists
    (* prepareObjectForCreate *) (fun _ obj => mem_prepare obj)
    (* sanitizePatch *) (fun data _ => inr data)
    (* o_create *) (fun _ _ _ _ obj st => mem_create obj st)
    (* o_get *) (fun _ _ ns name _ st => mem_get ns name st)
    (* o_delete *) (fun _ _ ns name _ _ _ st => mem_delete ns name st)
    (* client_List *) (fun _ ns _ st => mem_list ns st)
    (* client_Patch *) (fun _ ns name _ data st => mem_patch ns name data st)
    (* cache_ListAllByNamespace *) (fun _ ns _ st => mem_cache_list ns st)
    (* compareObjects *)
    (fun _ _ reconciler patcher _ _ old new _ s =>
       mem_compareObjects reconciler patcher old new s).

Definition configMap : GroupVersionKind :=
  {| Group := ""; Version := "v1"; Kind := "ConfigMap" |}.

Definition key (ns name : string) : ObjectKey := {| Namespace := ns; Name := name |}.

Definition object (ns name : string) (labels : gmap string string) (data : string)
    : Object :=
  MetaObject {| GetNamespace := ns; GetName := name; GetUID := "";
                GetLabels := labels; GetOwnerReferences := [] |} data.

Definition byKey (l : list Object) : ObjectByKey :=
  foldl (fun m obj => (@addObjectToMap m obj).1) ∅ l.

(** An ownerless desired set without informers. *)
Definition ownerless (desired : ObjectSet) (planning : bool) : @desiredSet world :=
  {| a_informers := ∅; owner := None; setOwnerReference := false;
     ownerReferenceController := false; ownerReferenceBlock := false;
     defaultNamespace := "default"; listerNamespace := "";
     strictCaching := false; restrictClusterScoped := false;
     pruneTypes := ∅; patchers := ∅; reconcilers := ∅;
     informerFactory := None; objs := desired; createPlan := planning |}.

Definition emptyPlan : Plan :=
  {| plan_Create := ∅; plan_Delete := ∅; plan_Update := [] |}.

Definition start (st : list Object) : @State world :=
  @Build_State world st emptyPlan [].

#[local] Existing Instance world.
#[local] Existing Instance keyAPI.
#[local] Existing Instance collaborators.

(** Objects of the scenarios. *)
Definition a : Object := object "ns1" "a" ∅ "A".
Definition b : Object := object "ns1" "b" ∅ "B".
Definition b2 : Object := object "ns1" "b" ∅ "B2".
Definition c : Object := object "ns1" "c" ∅ "C".
Definition d : Object := object "ns1" "d" {[ LabelPrune := "false" ]} "D".
Definition raw : Object := BareObject "raw".
Definition hidden : Object := object "locked" "h" ∅ "H".

(** Desired [ns1/a] and [ns1/b]. *)
Definition desiredAB : ObjectByKey := byKey [a; b2].

(** Desired [ns1/a] only. *)
Definition desiredA : ObjectByKey := byKey [a].

(** Desired [ns1/a] and [locked/h]; the namespace of the latter cannot be
    listed. *)
Definition desiredLocked : ObjectByKey := byKey [a; hidden].

Definition configMapV2 : GroupVersionKind :=
  {| Group := ""; Version := "v2"; Kind := "ConfigMap" |}.

(** An overall collection with two versions of the kind: [ns1/a] and an
    unqualified [e] under v1, [ns1/c] under v2. *)
Definition twoVersions : ObjectSet :=
  {[ configMap := byKey [a; object "" "e" ∅ "E"]; configMapV2 := byKey [c] ]}.

(** A patcher in the manner of [ReplaceOnChange]. *)
Definition replacePatcher : @Patcher world :=
  fun _ _ _ _ s => ((None, Some ErrReplace), s).

Definition noWork : Work := {| toUpdate := []; existing := ∅ |}.

End Fixture.

(** * Properties *)

(** ** The order on rendered keys *)

Lemma string_compare_refl (s : string) : (s ?= s)%string = Eq.
Proof.
  induction s as [|a s IH]; simpl; [done|].
  unfold Ascii.compare. by rewrite N.compare_refl.
Qed.

Lemma string_compare_lt_trans (s1 s2 s3 : string) :
  (s1 ?= s2)%string = Lt -> (s2 ?= s3)%string = Lt -> (s1 ?= s3)%string = Lt.
Proof.
  revert s2 s3. induction s1 as [|a s1 IH]; intros [|b s2] [|c s3]; simpl; try done.
  unfold Ascii.compare.
  destruct (N.compare_spec (N_of_ascii a) (N_of_ascii b)) as [Hab|Hab|Hab]; try done;
    destruct (N.compare_spec (N_of_ascii b) (N_of_ascii c)) as [Hbc|Hbc|Hbc]; try done;
    intros H12 H23.
  - rewrite Hab, Hbc, N.compare_refl. eauto.
  - rewrite Hab. by apply N.compare_lt_iff in Hbc as ->.
  - rewrite <- Hbc. by apply N.compare_lt_iff in Hab as ->.
  - assert (N_of_ascii a < N_of_ascii c)%N as Hac by (etrans; eauto).
    by apply N.compare_lt_iff in Hac as ->.
Qed.

Lemma string_leb_trans (s1 s2 s3 : string) :
  (s1 <=? s2)%string = true -> (s2 <=? s3)%string = true -> (s1 <=? s3)%string = true.
Proof.
  unfold String.leb.
  destruct (s1 ?= s2)%string eqn:H12; try done;
    destruct (s2 ?= s3)%string eqn:H23; try done; intros _ _.
  - apply String.compare_eq_iff in H12 as ->. by rewrite H23.
  - apply String.compare_eq_iff in H12 as ->. by rewrite H23.
  - apply String.compare_eq_iff in H23 as <-. by rewrite H12.
  - by rewrite (string_compare_lt_trans _ _ _ H12 H23).
Qed.

Lemma string_ltb_false_leb (s1 s2 : string) :
  (s2 <? s1)%string = false <-> (s1 <=? s2)%string = true.
Proof.
  unfold String.ltb, String.leb. rewrite (String.compare_antisym s2 s1).
  destruct (s1 ?= s2)%string; simpl; naive_solver.
Qed.

Lemma StronglySorted_weaken {A} (R1 R2 : relation A) (l : list A) :
  (forall x y, R1 x y -> R2 x y) -> StronglySorted R1 l -> StronglySorted R2 l.
Proof.
  intros HR. induction 1 as [|x l _ IH Hx]; constructor; [done|].
  eapply Forall_impl; eauto.
Qed.

Section SetDifferFacts.
Context `{KeyAPI}.

(** Rendered keys in nondecreasing order, every element against every
    later one. *)
Definition key_le (a b : ObjectKey) : Prop :=
  (ObjectKey_String a <=? ObjectKey_String b)%string = true.

Definition key_sorted (keys : list ObjectKey) : Prop :=
  StronglySorted key_le keys.

Lemma not_after_key_le a b : not_after key_less a b <-> key_le a b.
Proof. apply string_ltb_false_leb. Qed.

#[local] Instance not_after_key_less_trans : Transitive (not_after key_less).
Proof.
  intros a b c. rewrite !not_after_key_le. apply string_leb_trans.
Qed.

#[local] Instance not_after_key_less_total : Total (not_after key_less).
Proof.
  intros a b. rewrite !not_after_key_le. apply String.leb_total.
Qed.

Lemma sortObjectKeys_perm keys : sortObjectKeys keys ≡ₚ keys.
Proof. apply merge_sort_Permutation. Qed.

Lemma sortObjectKeys_sorted keys : key_sorted (sortObjectKeys keys).
Proof.
  unfold key_sorted, sortObjectKeys, sort_Slice.
  eapply StronglySorted_weaken; [|apply (StronglySorted_merge_sort _)].
  intros a b. apply not_after_key_le.
Qed.

Lemma elem_of_sortObjectKeys k keys : k ∈ sortObjectKeys keys <-> k ∈ keys.
Proof. by rewrite sortObjectKeys_perm. Qed.

(** The two loops of [compareSets] as filters of the ranged-over entries. *)
Lemma splitNew_fold (existingSet : ObjectByKey) (l : list (ObjectKey * Object)) c u :
  foldl (fun '(toCreate, toUpdate) '(k, _) =>
           match existingSet !! k with
           | Some _ => (toCreate, toUpdate ++ [k])
           | None => (toCreate ++ [k], toUpdate)
           end)
        (c, u) l =
    (c ++ filter (fun k => existingSet !! k = None) l.*1,
     u ++ filter (fun k => is_Some (existingSet !! k)) l.*1).
Proof.
  revert c u. induction l as [|[k obj] l IH]; intros c u; simpl.
  - by rewrite !app_nil_r.
  - rewrite !filter_cons. simpl.
    destruct (existingSet !! k) as [e|] eqn:Hk; rewrite IH.
    + rewrite decide_False by done. rewrite decide_True by done.
      by rewrite <- app_assoc.
    + rewrite decide_True by done. rewrite decide_False by (by intros []).
      by rewrite <- app_assoc.
Qed.

Lemma splitNew_filter existingSet newSet :
  splitNew existingSet newSet =
    (filter (fun k => existingSet !! k = None) (map_to_list newSet).*1,
     filter (fun k => is_Some (existingSet !! k)) (map_to_list newSet).*1).
Proof. unfold splitNew. by rewrite splitNew_fold. Qed.

Definition prunable (newSet : ObjectByKey) (entry : ObjectKey * Object) : Prop :=
  newSet !! entry.1 = None /\ shouldPrune entry.2 = true.

#[local] Instance prunable_dec newSet entry : Decision (prunable newSet entry).
Proof. unfold prunable. apply _. Defined.

Lemma pruneCandidates_fold (newSet : ObjectByKey) (l : list (ObjectKey * Object)) d :
  foldl (fun toDelete '(k, obj) =>
           match newSet !! k with
           | Some _ => toDelete
           | None => if shouldPrune obj then toDelete ++ [k] else toDelete
           end)
        d l =
    d ++ (filter (prunable newSet) l).*1.
Proof.
  revert d. induction l as [|[k obj] l IH]; intros d; simpl.
  - by rewrite app_nil_r.
  - rewrite filter_cons.
    destruct (decide (prunable newSet (k, obj))) as [[Hn Hp]|Hnot]; simpl in *.
    + rewrite Hn, Hp, IH. by rewrite <- app_assoc.
    + destruct (newSet !! k) as [n|] eqn:Hk; [apply IH|].
      destruct (shouldPrune obj) eqn:Hp; [|apply IH].
      destruct Hnot. by split.
Qed.

Lemma pruneCandidates_filter existingSet newSet :
  pruneCandidates existingSet newSet =
    (filter (prunable newSet) (map_to_list existingSet)).*1.
Proof. unfold pruneCandidates. by rewrite pruneCandidates_fold. Qed.

Lemma elem_of_keys (m : ObjectByKey) k : k ∈ (map_to_list m).*1 <-> is_Some (m !! k).
Proof.
  rewrite list_elem_of_fmap. split.
  - intros [[k' obj] [-> Hin]]. apply elem_of_map_to_list in Hin. eauto.
  - intros [obj Hobj]. exists (k, obj). split; [done|].
    by apply elem_of_map_to_list.
Qed.

Lemma elem_of_splitNew_create existingSet newSet k :
  k ∈ (splitNew existingSet newSet).1 <->
  is_Some (newSet !! k) /\ existingSet !! k = None.
Proof.
  rewrite splitNew_filter. simpl.
  rewrite list_elem_of_filter, elem_of_keys. tauto.
Qed.

Lemma elem_of_splitNew_update existingSet newSet k :
  k ∈ (splitNew existingSet newSet).2 <->
  is_Some (newSet !! k) /\ is_Some (existingSet !! k).
Proof.
  rewrite splitNew_filter. simpl.
  rewrite list_elem_of_filter, elem_of_keys. tauto.
Qed.

Lemma elem_of_pruneCandidates existingSet newSet k :
  k ∈ pruneCandidates existingSet newSet <->
  exists obj, existingSet !! k = Some obj /\ newSet !! k = None /\ shouldPrune obj = true.
Proof.
  rewrite pruneCandidates_filter, list_elem_of_fmap. split.
  - intros [[k' obj] [-> Hin]]. apply list_elem_of_filter in Hin as [[Hn Hp] Hin].
    apply elem_of_map_to_list in Hin. simpl in *. eauto.
  - intros (obj & He & Hn & Hp). exists (k, obj). split; [done|].
    apply list_elem_of_filter. split; [done|]. by apply elem_of_map_to_list.
Qed.

Lemma NoDup_splitNew_create existingSet newSet :
  NoDup (splitNew existingSet newSet).1.
Proof.
  rewrite splitNew_filter. apply NoDup_filter, NoDup_fst_map_to_list.
Qed.

Lemma NoDup_splitNew_update existingSet newSet :
  NoDup (splitNew existingSet newSet).2.
Proof.
  rewrite splitNew_filter. apply NoDup_filter, NoDup_fst_map_to_list.
Qed.

Lemma NoDup_pruneCandidates existingSet newSet :
  NoDup (pruneCandidates existingSet newSet).
Proof.
  rewrite pruneCandidates_filter.
  assert (forall l : list (ObjectKey * Object),
             NoDup l.*1 -> NoDup (filter (prunable newSet) l).*1) as Hf.
  { induction l as [|x l IH]; simpl; [constructor|].
    rewrite filter_cons. intros [Hx Hl]%NoDup_cons.
    destruct (decide _); simpl; [|eauto].
    apply NoDup_cons. split; [|eauto].
    intros [y [Hy Hin]]%list_elem_of_fmap.
    apply list_elem_of_filter in Hin as [_ Hin].
    apply Hx. rewrite Hy. by apply list_elem_of_fmap_2. }
  apply Hf, NoDup_fst_map_to_list.
Qed.

(** The three outputs of [compareSets] in terms of its loops. *)
Lemma compareSets_eq existingSet newSet :
  compareSets existingSet newSet =
    (sortObjectKeys (splitNew existingSet newSet).1,
     sortObjectKeys (pruneCandidates existingSet newSet),
     sortObjectKeys (splitNew existingSet newSet).2).
Proof. unfold compareSets. by destruct (splitNew existingSet newSet). Qed.

(** The object carries a label that explicitly disables pruning. *)
Definition prune_disabled (obj : Object) : Prop :=
  exists m, meta_Accessor obj = inr m /\ GetLabels m !! LabelPrune = Some "false".

Lemma shouldPrune_iff obj : shouldPrune obj = true <-> ~ prune_disabled obj.
Proof.
  unfold shouldPrune, prune_disabled, label.
  destruct obj as [m c|c]; simpl.
  - rewrite bool_decide_eq_true. split.
    + intros Hne (m' & [= <-] & Hl). by rewrite Hl in Hne.
    + intros Hno Heq. apply Hno. exists m. split; [done|].
      destruct (GetLabels m !! LabelPrune) as [v|]; simpl in *; by subst.
  - split; [|done]. by intros _ (m & ? & _).
Qed.

(** C4 (amended): [compareSets] puts every desired key into exactly one of
    update (present in existing) and create (absent from existing), puts an
    existing key that is absent from desired into delete exactly when its
    object is prune-eligible and otherwise into no output, lists no key
    twice, and returns each of the three sequences sorted by the rendered
    key. *)
Theorem compareSets_classifies_sorted (existingSet newSet : ObjectByKey) :
  let '(toCreate, toDelete, toUpdate) := compareSets existingSet newSet in
  (forall k, k ∈ toUpdate <-> is_Some (newSet !! k) /\ is_Some (existingSet !! k)) /\
  (forall k, k ∈ toCreate <-> is_Some (newSet !! k) /\ existingSet !! k = None) /\
  (forall k, k ∈ toDelete <->
     exists obj, existingSet !! k = Some obj /\ newSet !! k = None /\
                 shouldPrune obj = true) /\
  NoDup (toCreate ++ toUpdate ++ toDelete) /\
  key_sorted toCreate /\ key_sorted toDelete /\ key_sorted toUpdate.
Proof.
  rewrite compareSets_eq.
  assert (forall k, k ∈ sortObjectKeys (splitNew existingSet newSet).2 <->
                    is_Some (newSet !! k) /\ is_Some (existingSet !! k)) as Hu.
  { intros k. by rewrite elem_of_sortObjectKeys, elem_of_splitNew_update. }
  assert (forall k, k ∈ sortObjectKeys (splitNew existingSet newSet).1 <->
                    is_Some (newSet !! k) /\ existingSet !! k = None) as Hc.
  { intros k. by rewrite elem_of_sortObjectKeys, elem_of_splitNew_create. }
  assert (forall k, k ∈ sortObjectKeys (pruneCandidates existingSet newSet) <->
                    exists obj, existingSet !! k = Some obj /\ newSet !! k = None /\
                                shouldPrune obj = true) as Hd.
  { intros k. by rewrite elem_of_sortObjectKeys, elem_of_pruneCandidates. }
  refine (conj Hu (conj Hc (conj Hd (conj _ (conj _ (conj _ _))))));
    try apply sortObjectKeys_sorted.
  apply NoDup_app. split; [|split].
  - rewrite sortObjectKeys_perm. apply NoDup_splitNew_create.
  - intros k [Hn He]%Hc [[_ [obj Hobj]]%Hu|(obj & Hobj & Hn' & _)%Hd]%elem_of_app.
    + by rewrite He in Hobj.
    + rewrite Hn' in Hn. by destruct Hn.
  - apply NoDup_app. split; [|split].
    + rewrite sortObjectKeys_perm. apply NoDup_splitNew_update.
    + intros k [Hn He]%Hu (obj & Hobj & Hn' & _)%Hd.
      rewrite Hn' in Hn. by destruct Hn.
    + rewrite sortObjectKeys_perm. apply NoDup_pruneCandidates.
Qed.

(** C5: an existing object whose key is absent from the desired set has
    its key in the delete output of [compareSets] if and only if it lacks
    a label that disables pruning. *)
Theorem compareSets_delete_iff_not_disabled (existingSet newSet : ObjectByKey)
    (k : ObjectKey) (obj : Object) :
  existingSet !! k = Some obj ->
  newSet !! k = None ->
  let '(_, toDelete, _) := compareSets existingSet newSet in
  k ∈ toDelete <-> ~ prune_disabled obj.
Proof.
  intros He Hn. rewrite compareSets_eq.
  rewrite elem_of_sortObjectKeys, elem_of_pruneCandidates, <- shouldPrune_iff.
  split.
  - intros (obj' & He' & _ & Hp). by simplify_eq.
  - intros Hp. eauto.
Qed.

(** C10: [shouldPrune] is true for an object whose metadata the accessor
    cannot reach, so such an existing object is a delete candidate whenever
    its key is absent from the desired set. *)
Theorem shouldPrune_inaccessible_metadata (obj : Object) (err : error) :
  meta_Accessor obj = inl err ->
  shouldPrune obj = true /\
  forall (existingSet newSet : ObjectByKey) (k : ObjectKey),
    existingSet !! k = Some obj ->
    newSet !! k = None ->
    let '(_, toDelete, _) := compareSets existingSet newSet in
    k ∈ toDelete.
Proof.
  intros Hacc.
  assert (shouldPrune obj = true) as Hp by (unfold shouldPrune; by rewrite Hacc).
  split; [done|]. intros existingSet newSet k He Hn.
  rewrite compareSets_eq, elem_of_sortObjectKeys, elem_of_pruneCandidates. eauto.
Qed.

End SetDifferFacts.

(** ** The cross-version filter *)

Section CrossVersionFacts.
Context `{World}.

(** The key is desired under the kind and version [gvk] in the overall
    collection. *)
Definition desired_as (objs : ObjectSet) (gvk : GroupVersionKind) (key : ObjectKey)
    : Prop :=
  is_Some (objs !! gvk ≫= fun byKey : ObjectByKey => byKey !! key).

(** The key is desired under the group and kind of [gvk], in a version
    that satisfies [V]. *)
Definition desired_in_version (V : string -> Prop) (objs : ObjectSet)
    (gvk : GroupVersionKind) (key : ObjectKey) : Prop :=
  map_Exists (fun gvk' byKey =>
                GVK_GroupKind gvk' = GVK_GroupKind gvk /\ V (Version gvk') /\
                is_Some (byKey !! key))
             objs.

(** The rule of the specification: the candidate is desired under the same
    group and kind in a different version, or it lies in the default
    namespace and its name is desired without a namespace. *)
Definition suppressed (o : desiredSet) (gvk : GroupVersionKind) (key : ObjectKey)
    : Prop :=
  desired_in_version (fun v => v <> Version gvk) (objs o) gvk key \/
  (Namespace key = defaultNamespace o /\
   desired_in_version (fun _ => True) (objs o) gvk
                      {| Namespace := ""; Name := Name key |}).

#[local] Instance suppressed_dec o gvk key : Decision (suppressed o gvk key).
Proof. unfold suppressed, desired_in_version. apply _. Defined.

Lemma ObjectSet_Contains_true (objs : ObjectSet) gvk key :
  ObjectSet_Contains objs (GVK_GroupKind gvk) key = true <->
  desired_in_version (fun _ => True) objs gvk key.
Proof.
  unfold ObjectSet_Contains, desired_in_version.
  rewrite map_Exists_to_list, <- Is_true_true, existb_True.
  split; intros Hex; (eapply Exists_impl; [exact Hex|]);
    intros [gvk' byKey]; simpl; rewrite andb_True, !bool_decide_spec; tauto.
Qed.

(** The loop of [filterCrossVersion] keeps, in order, the keys that
    neither test of its body rejects. *)
Lemma filterCrossVersion_filter (o : desiredSet) gvk keys :
  filterCrossVersion o gvk keys =
    filter (fun key =>
              ~ (desired_in_version (fun _ => True) (objs o) gvk key \/
                 (Namespace key = defaultNamespace o /\
                  desired_in_version (fun _ => True) (objs o) gvk
                                     {| Namespace := ""; Name := Name key |})))
           keys.
Proof.
  unfold filterCrossVersion.
  set (P := fun key : ObjectKey => ~ (_ \/ _)).
  enough (forall result, foldl _ result keys = result ++ filter P keys) as ->; [done|].
  induction keys as [|key keys IH]; intros result; simpl.
  - by rewrite app_nil_r.
  - rewrite filter_cons, IH.
    destruct (ObjectSet_Contains (objs o) (GVK_GroupKind gvk) key) eqn:Hc.
    { apply ObjectSet_Contains_true in Hc.
      destruct (decide (P key)) as [HP|_]; [|done]. destruct HP. by left. }
    assert (~ desired_in_version (fun _ => True) (objs o) gvk key) as Hn.
    { rewrite <- ObjectSet_Contains_true. by rewrite Hc. }
    destruct (bool_decide (Namespace key = defaultNamespace o)) eqn:Hns; simpl.
    + apply bool_decide_eq_true in Hns.
      destruct (ObjectSet_Contains _ _ {| Namespace := ""; Name := Name key |}) eqn:Hu.
      * apply ObjectSet_Contains_true in Hu.
        destruct (decide (P key)) as [HP|_]; [|done]. destruct HP. by right.
      * assert (~ desired_in_version (fun _ => True) (objs o) gvk
                   {| Namespace := ""; Name := Name key |}) as Hn'.
        { rewrite <- ObjectSet_Contains_true. by rewrite Hu. }
        destruct (decide (P key)) as [_|HP]; [by rewrite <- app_assoc|].
        destruct HP. intros [?|[_ ?]]; done.
    + apply bool_decide_eq_false in Hns.
      destruct (decide (P key)) as [_|HP]; [by rewrite <- app_assoc|].
      destruct HP. intros [?|[? _]]; done.
Qed.

Lemma filter_ext_elem_of {A} (P Q : A -> Prop) `{!forall x, Decision (P x)}
    `{!forall x, Decision (Q x)} (l : list A) :
  (forall x, x ∈ l -> (P x <-> Q x)) -> filter P l = filter Q l.
Proof.
  induction l as [|x l IH]; intros HPQ; [done|].
  rewrite !filter_cons.
  assert (filter P l = filter Q l) as ->.
  { apply IH. intros y Hy. apply HPQ. by right. }
  destruct (HPQ x) as [HP HQ]; [by left|].
  destruct (decide (P x)), (decide (Q x)); tauto.
Qed.

Lemma desired_other_version (objs : ObjectSet) gvk key :
  ~ desired_as objs gvk key ->
  desired_in_version (fun _ => True) objs gvk key <->
  desired_in_version (fun v => v <> Version gvk) objs gvk key.
Proof.
  intros Hnot. unfold desired_in_version, map_Exists. split.
  - intros (gvk' & byKey & Hl & Hgk & _ & Hk).
    exists gvk', byKey. split_and!; try done.
    intros Hv. apply Hnot. unfold desired_as.
    assert (gvk' = gvk) as <-.
    { destruct gvk, gvk'. unfold GVK_GroupKind in Hgk. simpl in *. by simplify_eq. }
    by rewrite Hl.
  - intros (gvk' & byKey & Hl & Hgk & _ & Hk). eauto 10.
Qed.

(** C6: on a list of delete candidates, none of which is itself desired
    under the reconciled kind and version, [filterCrossVersion] removes
    exactly the candidates that are desired under the same group and kind
    in a different version, or that lie in the default namespace while
    their name is desired without a namespace; the others are kept, in
    order. *)
Theorem filterCrossVersion_removes_suppressed (o : desiredSet)
    (gvk : GroupVersionKind) (keys : list ObjectKey) :
  (forall key, key ∈ keys -> ~ desired_as (objs o) gvk key) ->
  filterCrossVersion o gvk keys = filter (fun key => ~ suppressed o gvk key) keys.
Proof.
  intros Hcand. rewrite filterCrossVersion_filter.
  apply filter_ext_elem_of. intros key Hkey. unfold suppressed.
  by rewrite (desired_other_version _ _ _ (Hcand key Hkey)).
Qed.

End CrossVersionFacts.

(** ** The execution pipeline and the orchestrator *)

Section PipelineFacts.
Context `{World} `{!KeyAPI} `{!Collaborators}.

Lemma is_ErrReplace_true err : is_ErrReplace err = true <-> err = ErrReplace.
Proof. destruct err; simpl; naive_solver. Qed.

Lemma store_o_err err s : store (o_err err s) = store s.
Proof. done. Qed.

(** C7: when the create of a key fails with an already-exists error and
    the following get succeeds, [createF] appends the key to the update
    list, installs the fetched object as the existing state of the key and
    reports no error; the update loop of the same run then compares the key
    against the fetched object. *)
Theorem createF_takes_over (o : desiredSet) (debugID : string)
    (gvk : GroupVersionKind) (nsed : bool) (client : Client) (objs : ObjectByKey)
    (k : ObjectKey) (w : Work) (s : State)
    (obj existingObj : Object) (err : error) (st : Store) :
  prepareObjectForCreate gvk (objs !! k) = inr obj ->
  o_create o nsed (Namespace k) client obj (store s) = (inl err, st) ->
  IsAlreadyExists err = true ->
  o_get o nsed (Namespace k) (Name k) client st = inr existingObj ->
  createF o debugID gvk nsed client objs k (w, s) =
    ({| toUpdate := toUpdate w ++ [k];
        existing := <[k := existingObj]> (existing w) |},
     set_store st s) /\
  errs (createF o debugID gvk nsed client objs k (w, s)).2 = errs s /\
  forall reconciler patcher toDelete,
    runPhases o debugID gvk nsed client reconciler patcher objs [k] toDelete (w, s) =
      foldl (fun s k => deleteF o debugID gvk nsed client k false s)
            (foldl (fun s k' =>
                      updateF o debugID gvk nsed client reconciler patcher objs
                              (<[k := existingObj]> (existing w)) true k' s)
                   (set_store st s) (toUpdate w ++ [k]))
            toDelete.
Proof.
  intros Hprep Hcreate Hexists Hget.
  assert (createF o debugID gvk nsed client objs k (w, s) =
            ({| toUpdate := toUpdate w ++ [k];
                existing := <[k := existingObj]> (existing w) |},
             set_store st s)) as Heq.
  { unfold createF. rewrite Hprep, Hcreate, Hexists. simpl. by rewrite Hget. }
  split; [done|]. split; [by rewrite Heq|].
  intros reconciler patcher toDelete. unfold runPhases.
  change (foldl (fun ws k0 => createF o debugID gvk nsed client objs k0 ws) (w, s) [k])
    with (createF o debugID gvk nsed client objs k (w, s)).
  by rewrite Heq.
Qed.

(** C9: when the create of a key fails with an already-exists error and
    the following get fails too, [createF] leaves the update list and the
    existing state alone and reports the error of the create, wrapped as a
    create failure of the key; the error of the get is dropped. *)
Theorem createF_takeover_get_fails (o : desiredSet) (debugID : string)
    (gvk : GroupVersionKind) (nsed : bool) (client : Client) (objs : ObjectByKey)
    (k : ObjectKey) (w : Work) (s : State)
    (obj : Object) (err getErr : error) (st : Store) :
  prepareObjectForCreate gvk (objs !! k) = inr obj ->
  o_create o nsed (Namespace k) client obj (store s) = (inl err, st) ->
  IsAlreadyExists err = true ->
  o_get o nsed (Namespace k) (Name k) client st = inl getErr ->
  createF o debugID gvk nsed client objs k (w, s) =
    (w, o_err (ErrWrap err (FailedCreate k gvk debugID)) (set_store st s)).
Proof.
  intros Hprep Hcreate Hexists Hget.
  unfold createF. rewrite Hprep, Hcreate, Hexists. simpl. by rewrite Hget.
Qed.

(** C8: when the comparison step of a key returns the replace sentinel,
    [updateF] deletes the object with the force flag set and reports the
    replace-wait condition; any other error is reported as an update
    failure of the key; either way the loop goes on with the keys that
    follow. *)
Theorem updateF_replace_or_report (o : desiredSet) (debugID : string)
    (gvk : GroupVersionKind) (nsed : bool) (client : Client)
    (reconciler : option Reconciler) (patcher : Patcher)
    (objs existing : ObjectByKey) (pending : bool)
    (k : ObjectKey) (rest : list ObjectKey) (s s1 : State) (err : error) :
  compareObjects o gvk reconciler patcher client debugID
                 (existing !! k) (objs !! k) pending s = (Some err, s1) ->
  let update := fun s k =>
    updateF o debugID gvk nsed client reconciler patcher objs existing pending k s in
  let deleted := o_delete o nsed (Namespace k) (Name k) client true gvk (store s1) in
  (err = ErrReplace ->
     update s k = o_err (ErrReplaceWait gvk k debugID)
                        (deleteF o debugID gvk nsed client k true s1) /\
     store (update s k) = deleted.2 /\
     errs (update s k) =
       errs s1 ++ match deleted.1 with
                  | Some derr => [ErrWrap derr (FailedDelete k gvk debugID)]
                  | None => []
                  end ++ [ErrReplaceWait gvk k debugID]) /\
  (err <> ErrReplace ->
     update s k = o_err (ErrWrap err (FailedUpdate k gvk debugID)) s1) /\
  foldl update s (k :: rest) = foldl update (update s k) rest.
Proof.
  intros Hcmp update deleted. split_and!; [| |done].
  - intros ->. unfold update, updateF. rewrite Hcmp. simpl.
    split; [done|]. unfold deleteF. fold deleted.
    destruct deleted as [[derr|] st]; simpl; [|done].
    by rewrite <- app_assoc.
  - intros Hne. unfold update, updateF. rewrite Hcmp.
    destruct (is_ErrReplace err) eqn:Hr; [|done].
    by apply is_ErrReplace_true in Hr.
Qed.

(** The steps of [process] before the listing went through: the client
    was resolved, the kind is admitted, and the normalizer turned [objs]
    into [objs']. *)
Definition prepared (o : desiredSet) (debugID : string) (gvk : GroupVersionKind)
    (objs : ObjectByKey) (controller : option Informer) (client : Client)
    (nsed : bool) (objs' : ObjectByKey) : Prop :=
  getControllerAndClient o debugID gvk = inr (controller, client) /\
  clients_IsNamespaced gvk = inr nsed /\
  negb nsed && restrictClusterScoped o = false /\
  exists owned,
    (if setOwnerReference o && negb (is_nil (owner o))
     then assignOwnerReference o gvk objs else inr objs) = inr owned /\
    (if nsed then adjustNamespace o gvk owned else clearNamespace o owned) = inr objs'.

Definition chosenPatcher (o : desiredSet) (gvk : GroupVersionKind) (client : Client)
    : Patcher :=
  match patchers o !! gvk with
  | Some patcher => patcher
  | None => createPatcher o client
  end.

Lemma process_prepared o debugID set gvk objs controller client nsed objs' s :
  prepared o debugID gvk objs controller client nsed objs' ->
  process o debugID set gvk objs s =
    match desiredSet_list o nsed controller client set objs' (store s) with
    | (_, Some err) => o_err (ErrWrap err (FailedList gvk debugID)) s
    | (existing, None) =>
        processExisting o debugID gvk nsed client (reconcilers o !! gvk)
                        (chosenPatcher o gvk client) objs' existing s
    end.
Proof.
  intros (Hcc & Hns & Hscope & owned & Hown & Hnorm).
  unfold process. rewrite Hcc, Hns, Hscope, Hown, Hnorm. done.
Qed.

(** C1 (amended): when the lister returns a non-nil aggregated error,
    whatever objects it gathered, [process] reports the wrapped listing
    error through the error sink and returns: the gathered objects are not
    used, and nothing is compared, created, updated or deleted. *)
Theorem process_list_error_aborts (o : desiredSet) (debugID : string)
    (set : Selector) (gvk : GroupVersionKind) (objs : ObjectByKey) (s : State)
    (controller : option Informer) (client : Client) (nsed : bool)
    (objs' partial : ObjectByKey) (err : error) :
  prepared o debugID gvk objs controller client nsed objs' ->
  desiredSet_list o nsed controller client set objs' (store s) = (partial, Some err) ->
  process o debugID set gvk objs s = o_err (ErrWrap err (FailedList gvk debugID)) s.
Proof.
  intros Hprep Hlist. rewrite (process_prepared _ _ _ _ _ _ _ _ _ _ Hprep).
  by rewrite Hlist.
Qed.

(** *** Plan mode *)

(** What plan mode expects of the comparison step and of the patch
    sanitizer: without a reconciler, the comparison step reaches the store
    and asks for a replacement only through the patcher it is given, and
    the sanitizer never fails with the replace sentinel. *)
Definition patcher_keeps_store (patcher : Patcher) : Prop :=
  forall namespace name pt data s,
    store (patcher namespace name pt data s).2 = store s /\
    (patcher namespace name pt data s).1.2 <> Some ErrReplace.

Definition compare_through_patcher : Prop :=
  forall o gvk patcher client debugID oldObj newObj pending s,
    patcher_keeps_store patcher ->
    store (compareObjects o gvk None patcher client debugID oldObj newObj pending s).2
      = store s /\
    (compareObjects o gvk None patcher client debugID oldObj newObj pending s).1
      <> Some ErrReplace.

Definition sanitize_no_replace : Prop :=
  forall data forPlan, sanitizePatch data forPlan <> inl ErrReplace.

(** The recording patcher: the sanitized body is appended to the update
    list of the plan unless it is the no-op body; nothing else changes. *)
Lemma planPatcher_records gvk namespace name pt data s :
  planPatcher gvk namespace name pt data s =
    match sanitizePatch data true with
    | inl err => ((None, Some err), s)
    | inr body =>
        ((None, None),
         {| store := store s;
            plan := {| plan_Create := plan_Create (plan s);
                       plan_Delete := plan_Delete (plan s);
                       plan_Update :=
                         plan_Update (plan s) ++
                         (if bool_decide (body = "{}") then []
                          else [{| pu_gvk := gvk; pu_namespace := namespace;
                                   pu_name := name; pu_patch := body |}]) |};
            errs := errs s |})
    end.
Proof.
  unfold planPatcher. destruct (sanitizePatch data true) as [err|body]; [done|].
  destruct (decide (body = "{}")) as [->|Hne].
  - rewrite bool_decide_false by (by intros []). rewrite bool_decide_true by done.
    rewrite app_nil_r. by destruct s as [st [] es].
  - rewrite bool_decide_true by done. by rewrite bool_decide_false by done.
Qed.

Lemma planPatcher_keeps_store gvk :
  sanitize_no_replace -> patcher_keeps_store (planPatcher gvk).
Proof.
  intros Hsan namespace name pt data s. rewrite planPatcher_records.
  destruct (sanitizePatch data true) as [err|body] eqn:Hs; simpl; [|done].
  split; [done|]. intros [= ->]. by apply Hsan in Hs.
Qed.

Lemma updateF_plan_store o debugID gvk nsed client objs existing pending k s :
  compare_through_patcher -> sanitize_no_replace ->
  store (updateF o debugID gvk nsed client None (planPatcher gvk)
                 objs existing pending k s) = store s.
Proof.
  intros Hcmp Hsan. unfold updateF.
  destruct (Hcmp o gvk (planPatcher gvk) client debugID (existing !! k) (objs !! k)
                 pending s (planPatcher_keeps_store gvk Hsan)) as [Hst Hne].
  destruct (compareObjects _ _ _ _ _ _ _ _ _ _) as [[err|] s1]; simpl in *; [|done].
  destruct (is_ErrReplace err) eqn:Hr; [|done].
  apply is_ErrReplace_true in Hr as ->. done.
Qed.

Lemma update_loop_plan_store o debugID gvk nsed client objs existing pending keys s :
  compare_through_patcher -> sanitize_no_replace ->
  store (foldl (fun s k => updateF o debugID gvk nsed client None (planPatcher gvk)
                                   objs existing pending k s) s keys) = store s.
Proof.
  intros Hcmp Hsan. revert s. induction keys as [|k keys IH]; intros s; simpl; [done|].
  rewrite IH. by apply updateF_plan_store.
Qed.

(** In plan mode the part of [process] after the listing records the
    create and delete lists and runs the update loop alone. *)
Lemma processExisting_plan o debugID gvk nsed client reconciler patcher objs
    existing s :
  createPlan o = true ->
  processExisting o debugID gvk nsed client reconciler patcher objs existing s =
    let '(toCreate, toDelete, toUpdate) := compareSets existing objs in
    foldl (fun s k => updateF o debugID gvk nsed client None (planPatcher gvk)
                              objs existing false k s)
          (set_plan (plan_set_Create_Delete gvk toCreate
                       (filterCrossVersion o gvk toDelete) (plan s)) s)
          toUpdate.
Proof.
  intros Hplan. unfold processExisting. rewrite Hplan.
  by destruct (compareSets existing objs) as [[toCreate toDelete] toUpdate].
Qed.

(** C3: in plan mode [process] leaves the store as it found it; once the
    listing went through, it copies the create and delete lists into the
    plan and runs nothing but the update loop, with no pending creates or
    deletes, no reconciler, and the recording patcher in place of the
    configured one; the recording patcher sanitizes the patch body and
    appends it to the update list of the plan unless it is the no-op body,
    and changes nothing else. *)
Theorem process_plan_mode (o : desiredSet) (debugID : string) (set : Selector)
    (gvk : GroupVersionKind) (objs : ObjectByKey) (s : State) :
  createPlan o = true ->
  compare_through_patcher ->
  sanitize_no_replace ->
  store (process o debugID set gvk objs s) = store s /\
  (forall controller client nsed objs' existing,
     prepared o debugID gvk objs controller client nsed objs' ->
     desiredSet_list o nsed controller client set objs' (store s) = (existing, None) ->
     let '(toCreate, toDelete, toUpdate) := compareSets existing objs' in
     process o debugID set gvk objs s =
       foldl (fun s k => updateF o debugID gvk nsed client None (planPatcher gvk)
                                 objs' existing false k s)
             (set_plan (plan_set_Create_Delete gvk toCreate
                          (filterCrossVersion o gvk toDelete) (plan s)) s)
             toUpdate) /\
  (forall namespace name pt data s0,
     let '((obj, err), s1) := planPatcher gvk namespace name pt data s0 in
     obj = None /\ store s1 = store s0 /\ errs s1 = errs s0 /\
     plan_Create (plan s1) = plan_Create (plan s0) /\
     plan_Delete (plan s1) = plan_Delete (plan s0) /\
     match sanitizePatch data true with
     | inl serr => err = Some serr /\ plan_Update (plan s1) = plan_Update (plan s0)
     | inr body =>
         err = None /\
         plan_Update (plan s1) =
           plan_Update (plan s0) ++
           (if bool_decide (body = "{}") then []
            else [{| pu_gvk := gvk; pu_namespace := namespace;
                     pu_name := name; pu_patch := body |}])
     end).
Proof.
  intros Hplan Hcmp Hsan. split_and!.
  - unfold process.
    destruct (getControllerAndClient o debugID gvk) as [?|[controller client]]; [done|].
    destruct (clients_IsNamespaced gvk) as [?|nsed]; [done|].
    destruct (negb nsed && restrictClusterScoped o); [done|].
    destruct (if setOwnerReference o && negb (is_nil (owner o))
              then assignOwnerReference o gvk objs else inr objs) as [?|owned]; [done|].
    destruct (if nsed then adjustNamespace o gvk owned else clearNamespace o owned)
      as [?|objs']; [done|].
    destruct (desiredSet_list o nsed controller client set objs' (store s))
      as [existing [?|]]; [done|].
    rewrite processExisting_plan by done.
    destruct (compareSets existing objs') as [[toCreate toDelete] toUpdate].
    by rewrite update_loop_plan_store.
  - intros controller client nsed objs' existing Hprep Hlist.
    rewrite (process_prepared _ _ _ _ _ _ _ _ _ _ Hprep), Hlist.
    pose proof (processExisting_plan o debugID gvk nsed client (reconcilers o !! gvk)
                  (chosenPatcher o gvk client) objs' existing s Hplan) as Heq.
    by destruct (compareSets existing objs') as [[toCreate toDelete] toUpdate].
  - intros namespace name pt data s0. rewrite planPatcher_records.
    by destruct (sanitizePatch data true) as [serr|body].
Qed.

End PipelineFacts.

(** ** The properties on the in-memory store *)

Section Scenarios.
Import Fixture.
#[local] Existing Instance world.
#[local] Existing Instance keyAPI.
#[local] Existing Instance collaborators.

(** C4 (counterexample): the existing key [ns1/d], absent from the desired
    set and labelled against pruning, is in none of the three outputs of
    [compareSets]. *)
Lemma compareSets_key_in_no_output :
  let existingSet := byKey [b; c; d] in
  let '(toCreate, toDelete, toUpdate) := compareSets existingSet desiredAB in
  existingSet !! key "ns1" "d" = Some d /\
  desiredAB !! key "ns1" "d" = None /\
  (key "ns1" "d" ∉ toCreate) /\ (key "ns1" "d" ∉ toDelete) /\
  (key "ns1" "d" ∉ toUpdate) /\
  toCreate = [key "ns1" "a"] /\ toDelete = [key "ns1" "c"] /\
  toUpdate = [key "ns1" "b"].
Proof.
  intros existingSet.
  assert (compareSets existingSet desiredAB =
            ([key "ns1" "a"], [key "ns1" "c"], [key "ns1" "b"])) as ->
    by (vm_compute; reflexivity).
  split_and!; try (vm_compute; reflexivity);
    by intros [=]%list_elem_of_singleton.
Qed.

(** C5 (witness): [ns1/c] carries no label against pruning and is
    deleted. *)
Lemma compareSets_delete_iff_not_disabled_witness :
  let existingSet := byKey [b; c; d] in
  existingSet !! key "ns1" "c" = Some c /\
  desiredAB !! key "ns1" "c" = None /\
  (let '(_, toDelete, _) := compareSets existingSet desiredAB in
   key "ns1" "c" ∈ toDelete <-> ~ prune_disabled c).
Proof.
  intros existingSet.
  assert (existingSet !! key "ns1" "c" = Some c) as He by (vm_compute; reflexivity).
  assert (desiredAB !! key "ns1" "c" = None) as Hn by (vm_compute; reflexivity).
  exact (conj He (conj Hn
           (compareSets_delete_iff_not_disabled existingSet desiredAB _ _ He Hn))).
Defined.

(** C10 (witness): a bare value has no reachable metadata. *)
Lemma shouldPrune_inaccessible_metadata_witness :
  meta_Accessor raw = inl ErrNotObject /\
  shouldPrune raw = true /\
  forall (existingSet newSet : ObjectByKey) (k : ObjectKey),
    existingSet !! k = Some raw ->
    newSet !! k = None ->
    let '(_, toDelete, _) := compareSets existingSet newSet in
    k ∈ toDelete.
Proof.
  exact (conj eq_refl (shouldPrune_inaccessible_metadata raw ErrNotObject eq_refl)).
Defined.

(** C6 (witness): with [ns1/a] and an unqualified [e] desired under v1
    and [ns1/c] under v2, the candidates [ns1/c] and [default/e] of v1 are
    removed and [ns1/z] is kept. *)
Lemma filterCrossVersion_removes_suppressed_witness :
  let o := ownerless twoVersions false in
  let keys := [key "ns1" "c"; key "default" "e"; key "ns1" "z"] in
  (forall k, k ∈ keys -> ~ desired_as (objs o) configMap k) /\
  filterCrossVersion o configMap keys =
    filter (fun k => ~ suppressed o configMap k) keys /\
  filterCrossVersion o configMap keys = [key "ns1" "z"].
Proof.
  intros o keys.
  assert (forall k, k ∈ keys -> ~ desired_as (objs o) configMap k) as Hcand.
  { apply Forall_forall. repeat constructor; vm_compute; by intros [? [=]]. }
  split; [exact Hcand|]. split.
  - exact (filterCrossVersion_removes_suppressed o configMap keys Hcand).
  - vm_compute. reflexivity.
Defined.

(** C7 (witness): [ns1/a] is occupied by an object that was not listed. *)
Lemma createF_takes_over_witness :
  let o := ownerless {[ configMap := desiredA ]} false in
  let occupant := object "ns1" "a" ∅ "old" in
  let s := start [occupant] in
  let k := key "ns1" "a" in
  prepareObjectForCreate configMap (desiredA !! k) = inr a /\
  o_create o true (Namespace k) tt a (store s)
    = (inl (ErrExternal "AlreadyExists"), [occupant]) /\
  IsAlreadyExists (ErrExternal "AlreadyExists") = true /\
  o_get o true (Namespace k) (Name k) tt [occupant] = inr occupant /\
  createF o "id" configMap true tt desiredA k (noWork, s) =
    ({| toUpdate := [k]; existing := {[ k := occupant ]} |}, s) /\
  errs (createF o "id" configMap true tt desiredA k (noWork, s)).2 = [] /\
  store (runPhases o "id" configMap true tt None (createPatcher o tt) desiredA
                   [k] [] (noWork, s)) = [a].
Proof.
  intros o occupant s k.
  assert (prepareObjectForCreate configMap (desiredA !! k) = inr a) as H1
    by (vm_compute; reflexivity).
  assert (o_create o true (Namespace k) tt a (store s)
            = (inl (ErrExternal "AlreadyExists"), [occupant])) as H2
    by (vm_compute; reflexivity).
  assert (IsAlreadyExists (ErrExternal "AlreadyExists") = true) as H3
    by (vm_compute; reflexivity).
  assert (o_get o true (Namespace k) (Name k) tt [occupant] = inr occupant) as H4
    by (vm_compute; reflexivity).
  destruct (createF_takes_over o "id" configMap true tt desiredA k noWork s
              a occupant _ _ H1 H2 H3 H4) as (Hrun & Herrs & Hphases).
  refine (conj H1 (conj H2 (conj H3 (conj H4 (conj Hrun (conj Herrs _)))))).
  rewrite Hphases. vm_compute. reflexivity.
Defined.

(** C9 (witness): [locked/h] exists and cannot be read back. *)
Lemma createF_takeover_get_fails_witness :
  let o := ownerless {[ configMap := desiredLocked ]} false in
  let s := start [hidden] in
  let k := key "locked" "h" in
  prepareObjectForCreate configMap (desiredLocked !! k) = inr hidden /\
  o_create o true (Namespace k) tt hidden (store s)
    = (inl (ErrExternal "AlreadyExists"), [hidden]) /\
  IsAlreadyExists (ErrExternal "AlreadyExists") = true /\
  o_get o true (Namespace k) (Name k) tt [hidden] = inl (ErrExternal "Forbidden") /\
  createF o "id" configMap true tt desiredLocked k (noWork, s) =
    (noWork,
     o_err (ErrWrap (ErrExternal "AlreadyExists") (FailedCreate k configMap "id")) s).
Proof.
  intros o s k.
  assert (prepareObjectForCreate configMap (desiredLocked !! k) = inr hidden) as H1
    by (vm_compute; reflexivity).
  assert (o_create o true (Namespace k) tt hidden (store s)
            = (inl (ErrExternal "AlreadyExists"), [hidden])) as H2
    by (vm_compute; reflexivity).
  assert (IsAlreadyExists (ErrExternal "AlreadyExists") = true) as H3
    by (vm_compute; reflexivity).
  assert (o_get o true (Namespace k) (Name k) tt [hidden]
            = inl (ErrExternal "Forbidden")) as H4
    by (vm_compute; reflexivity).
  exact (conj H1 (conj H2 (conj H3 (conj H4
           (createF_takeover_get_fails o "id" configMap true tt desiredLocked k
              noWork s hidden _ _ _ H1 H2 H3 H4))))).
Defined.

(** C8 (witness): the patcher asks for a replacement of [ns1/b]; the
    object is deleted from the store and the wait is reported. *)
Lemma updateF_replace_or_report_witness :
  let o := ownerless {[ configMap := desiredAB ]} false in
  let s := start [b] in
  let k := key "ns1" "b" in
  let existingSet := byKey [b] in
  compareObjects o configMap None replacePatcher tt "id"
                 (existingSet !! k) (desiredAB !! k) false s = (Some ErrReplace, s) /\
  updateF o "id" configMap true tt None replacePatcher desiredAB existingSet false k s
    = o_err (ErrReplaceWait configMap k "id") (deleteF o "id" configMap true tt k true s) /\
  store (updateF o "id" configMap true tt None replacePatcher desiredAB existingSet
                 false k s) = [] /\
  errs (updateF o "id" configMap true tt None replacePatcher desiredAB existingSet
                false k s) = [ErrReplaceWait configMap k "id"].
Proof.
  intros o s k existingSet.
  assert (compareObjects o configMap None replacePatcher tt "id"
            (existingSet !! k) (desiredAB !! k) false s = (Some ErrReplace, s)) as Hcmp
    by (vm_compute; reflexivity).
  destruct (updateF_replace_or_report o "id" configMap true tt None replacePatcher
              desiredAB existingSet false k [] s s ErrReplace Hcmp)
    as [Hreplace _].
  destruct (Hreplace eq_refl) as (Hrun & Hstore & Herrs).
  split_and!; [exact Hcmp|exact Hrun|exact Hstore|exact Herrs].
Defined.

(** The steps before the listing, for an ownerless set whose desired keys
    all carry a namespace. *)
Lemma prepared_ownerless (overall : ObjectSet) (planning : bool)
    (desired : ObjectByKey) :
  adjustNamespace (ownerless overall planning) configMap desired = inr desired ->
  prepared (ownerless overall planning) "id" configMap desired None tt true desired.
Proof.
  intros Hadj. split_and!; try reflexivity. exists desired. by split.
Qed.

(** C1 (counterexample): the listing of [ns1] and [locked] fails on
    [locked] after it gathered [ns1/c].  [process] reports the failure
    and leaves the store alone, whereas continuing with the gathered
    objects as the existing state would have changed the store. *)
Lemma process_discards_partial_listing :
  let o := ownerless {[ configMap := desiredLocked ]} false in
  let s := start [c] in
  let listed := desiredSet_list o true None tt tt desiredLocked (store s) in
  listed.2 = Some (ErrMulti [ErrExternal "Forbidden"]) /\
  listed.1 = {[ key "ns1" "c" := c ]} /\
  process o "id" tt configMap desiredLocked s =
    o_err (ErrWrap (ErrMulti [ErrExternal "Forbidden"]) (FailedList configMap "id")) s /\
  store (process o "id" tt configMap desiredLocked s) = [c] /\
  store (processExisting o "id" configMap true tt None (createPatcher o tt)
                         desiredLocked listed.1 s) = [hidden; a].
Proof. intros o s listed. split_and!; vm_compute; reflexivity. Qed.

(** C1 (witness). *)
Lemma process_list_error_aborts_witness :
  let o := ownerless {[ configMap := desiredLocked ]} false in
  let s := start [c] in
  prepared o "id" configMap desiredLocked None tt true desiredLocked /\
  desiredSet_list o true None tt tt desiredLocked (store s)
    = ({[ key "ns1" "c" := c ]}, Some (ErrMulti [ErrExternal "Forbidden"])) /\
  process o "id" tt configMap desiredLocked s =
    o_err (ErrWrap (ErrMulti [ErrExternal "Forbidden"]) (FailedList configMap "id")) s.
Proof.
  intros o s.
  assert (prepared o "id" configMap desiredLocked None tt true desiredLocked) as Hprep.
  { apply prepared_ownerless. vm_compute. reflexivity. }
  assert (desiredSet_list o true None tt tt desiredLocked (store s)
            = ({[ key "ns1" "c" := c ]}, Some (ErrMulti [ErrExternal "Forbidden"])))
    as Hlist by (vm_compute; reflexivity).
  exact (conj Hprep (conj Hlist
           (process_list_error_aborts o "id" tt configMap desiredLocked s
              None tt true desiredLocked _ _ Hprep Hlist))).
Defined.

(** C2: a set without an owner and without an informer, whose only
    desired object is [ns1/a], against a store that holds [ns1/a] and
    [ns1/c]: the listing of the desired namespaces returns both, [ns1/c] is
    put on the delete list, and [process] deletes it from the store. *)
Theorem ownerless_process_deletes :
  let o := ownerless {[ configMap := desiredA ]} false in
  let s := start [a; c] in
  let listed := desiredSet_list o true None tt tt desiredA (store s) in
  owner o = None /\
  getControllerAndClient o "id" configMap = inr (None, tt) /\
  listed = ({[ key "ns1" "a" := a; key "ns1" "c" := c ]}, None) /\
  compareSets listed.1 desiredA = ([], [key "ns1" "c"], [key "ns1" "a"]) /\
  filterCrossVersion o configMap [key "ns1" "c"] = [key "ns1" "c"] /\
  process o "id" tt configMap desiredA s =
    {| store := [a]; plan := emptyPlan; errs := [] |}.
Proof. intros o s listed. split_and!; vm_compute; reflexivity. Qed.

(** The comparison step and the sanitizer of the fixture meet what plan
    mode expects of them. *)
Lemma fixture_compare_through_patcher : compare_through_patcher.
Proof.
  intros o gvk patcher client debugID oldObj newObj pending s Hp.
  change (compareObjects o gvk None patcher client debugID oldObj newObj pending s)
    with (mem_compareObjects None patcher oldObj newObj s).
  unfold mem_compareObjects.
  destruct oldObj as [[m content|content]|]; [|done..].
  destruct newObj as [newObj|]; [|done].
  destruct (bool_decide _); [done|].
  destruct (Hp (GetNamespace m) (GetName m) "application/merge-patch+json"
               (Fixture.content newObj) s) as [Hstore Herr].
  by destruct (patcher _ _ _ _ s) as [[obj err] s1].
Qed.

Lemma fixture_sanitize_no_replace : sanitize_no_replace.
Proof. by intros data forPlan. Qed.

(** C3 (witness): planning [ns1/a] and a changed [ns1/b] against a store
    that holds [ns1/b] and [ns1/c]: the store is left alone and the plan
    holds one create, one delete and one update. *)
Lemma process_plan_mode_witness :
  let o := ownerless {[ configMap := desiredAB ]} true in
  let s := start [b; c] in
  createPlan o = true /\
  compare_through_patcher /\
  sanitize_no_replace /\
  store (process o "id" tt configMap desiredAB s) = [b; c] /\
  plan (process o "id" tt configMap desiredAB s) =
    {| plan_Create := {[ configMap := [key "ns1" "a"] ]};
       plan_Delete := {[ configMap := [key "ns1" "c"] ]};
       plan_Update := [{| pu_gvk := configMap; pu_namespace := "ns1";
                          pu_name := "b"; pu_patch := "B2" |}] |}.
Proof.
  intros o s.
  destruct (process_plan_mode o "id" tt configMap desiredAB s eq_refl
              fixture_compare_through_patcher fixture_sanitize_no_replace)
    as (Hstore & _ & _).
  split_and!; [reflexivity|exact fixture_compare_through_patcher|
               exact fixture_sanitize_no_replace|exact Hstore|].
  vm_compute. reflexivity.
Defined.

End Scenarios.


(** * Further properties *)

(** ** Loops that re-key the map they range over *)

Lemma foldl_inl {A B E} (f : E + A -> B -> E + A) (l : list B) (e : E) :
  (forall e b, f (inl e) b = inl e) -> foldl f (inl e) l = inl e.
Proof. intros Hf. induction l as [|b l IH]; simpl; [done|]. by rewrite Hf. Qed.

(** An invariant [J] of the map and of the keys still to visit survives
    [rangeMut] when it survives the skip of a deleted key and every
    successful run of the body. *)
Lemma rangeMut_invariant
    (body : ObjectKey -> Object -> ObjectByKey -> error + ObjectByKey)
    (J : ObjectByKey -> list ObjectKey -> Prop) (objs res : ObjectByKey) :
  (forall m k rest, J m (k :: rest) -> m !! k = None -> J m rest) ->
  (forall m k v rest m',
     J m (k :: rest) -> m !! k = Some v -> body k v m = inr m' -> J m' rest) ->
  J objs (map_to_list objs).*1 ->
  rangeMut body objs = inr res ->
  J res [].
Proof.
  intros Hskip Hbody. unfold rangeMut.
  generalize ((map_to_list objs).*1) as keys. intros keys. revert objs.
  induction keys as [|k keys IH]; intros m HJ Hrun; simpl in *.
  - by simplify_eq.
  - destruct (m !! k) as [v|] eqn:Hk.
    + destruct (body k v m) as [err|m'] eqn:Hb.
      * rewrite foldl_inl in Hrun; done.
      * eapply IH; [|exact Hrun]. eauto.
    + eapply IH; [|exact Hrun]. eauto.
Qed.

(** Every entry of the result was either written by the body, which
    establishes [P] for what it writes, or was left alone. *)
Lemma rangeMut_establishes
    (body : ObjectKey -> Object -> ObjectByKey -> error + ObjectByKey)
    (P : ObjectKey -> Object -> Prop) (objs res : ObjectByKey) :
  (forall m k v m',
     m !! k = Some v -> body k v m = inr m' ->
     forall k1 v1, m' !! k1 = Some v1 -> (k1 <> k /\ m !! k1 = Some v1) \/ P k1 v1) ->
  rangeMut body objs = inr res ->
  forall k v, res !! k = Some v -> P k v.
Proof.
  intros Hbody Hrun.
  pose (J := fun (m : ObjectByKey) (rest : list ObjectKey) =>
               forall k1 v1, m !! k1 = Some v1 -> k1 ∈ rest \/ P k1 v1).
  assert (J res []) as HJ.
  { apply (rangeMut_invariant body J objs res); [| | |exact Hrun].
    - intros m k rest Hm Hk k1 v1 Hlk. destruct (Hm k1 v1 Hlk) as [Hin|HP]; [|by right].
      apply elem_of_cons in Hin as [->|Hin]; [congruence|by left].
    - intros m k v rest m' Hm Hk Hb k1 v1 Hlk.
      destruct (Hbody m k v m' Hk Hb k1 v1 Hlk) as [[Hne Hold]|HP]; [|by right].
      destruct (Hm k1 v1 Hold) as [Hin|HP]; [|by right].
      apply elem_of_cons in Hin as [->|Hin]; [done|by left].
    - intros k1 v1 Hlk. left. apply elem_of_keys. eauto. }
  intros k v Hk. destruct (HJ k v Hk) as [Hin|HP]; [|done]. by apply elem_of_nil in Hin.
Qed.

(** A property of the whole map that every run of the body keeps, and
    under which the body does not fail, makes the loop succeed and holds
    of its result. *)
Lemma rangeMut_total
    (body : ObjectKey -> Object -> ObjectByKey -> error + ObjectByKey)
    (Q : ObjectByKey -> Prop) (objs : ObjectByKey) :
  (forall m k v, Q m -> m !! k = Some v -> exists m', body k v m = inr m' /\ Q m') ->
  Q objs ->
  exists res, rangeMut body objs = inr res /\ Q res.
Proof.
  intros Hbody. unfold rangeMut.
  generalize ((map_to_list objs).*1) as keys. intros keys. revert objs.
  induction keys as [|k keys IH]; intros m HQ; simpl.
  - eauto.
  - destruct (m !! k) as [v|] eqn:Hk; [|by apply IH].
    destruct (Hbody m k v HQ Hk) as (m' & -> & HQ'). by apply IH.
Qed.

(** A body that leaves every map alone makes the loop return its input. *)
Lemma rangeMut_unchanged
    (body : ObjectKey -> Object -> ObjectByKey -> error + ObjectByKey)
    (objs : ObjectByKey) :
  (forall k v, objs !! k = Some v -> body k v objs = inr objs) ->
  rangeMut body objs = inr objs.
Proof.
  intros Hbody. unfold rangeMut.
  generalize ((map_to_list objs).*1) as keys.
  induction keys as [|k keys IH]; simpl; [done|].
  destruct (objs !! k) as [v|] eqn:Hk; [|done]. by rewrite (Hbody k v Hk).
Qed.

Section NormalizerFacts.
Context `{World} `{!KeyAPI} `{!Collaborators}.

(** Every key is the namespace and name of the metadata of its object. *)
Definition keyed_by_metadata (m : ObjectByKey) : Prop :=
  forall k v, m !! k = Some v ->
    exists meta, meta_Accessor v = inr meta /\
                 k = {| Namespace := GetNamespace meta; Name := GetName meta |}.

Lemma meta_Accessor_SetNamespace ns v meta :
  meta_Accessor v = inr meta ->
  exists meta', meta_Accessor (SetNamespace ns v) = inr meta' /\
                GetNamespace meta' = ns /\ GetName meta' = GetName meta /\
                GetUID meta' = GetUID meta /\ GetLabels meta' = GetLabels meta /\
                GetOwnerReferences meta' = GetOwnerReferences meta.
Proof. destruct v as [m c|c]; simpl; [|done]. intros [= ->]. eauto 10. Qed.

Lemma lookup_rekeyed (m : ObjectByKey) (k k' : ObjectKey) (v v1 : Object) k1 :
  <[k' := v]> (delete k m) !! k1 = Some v1 ->
  (k1 = k' /\ v1 = v) \/ (k1 <> k /\ m !! k1 = Some v1).
Proof.
  destruct (decide (k1 = k')) as [->|Hne].
  - rewrite lookup_insert_eq. intros [= <-]. by left.
  - rewrite lookup_insert_ne by done.
    destruct (decide (k1 = k)) as [->|Hne'].
    + by rewrite lookup_delete_eq.
    + rewrite lookup_delete_ne by done. by right.
Qed.

Lemma adjustNamespace_result_namespaced (o : desiredSet) (gvk : GroupVersionKind)
    (objs res : ObjectByKey) :
  defaultNamespace o <> "" ->
  adjustNamespace o gvk objs = inr res ->
  forall k, is_Some (res !! k) -> Namespace k <> "".
Proof.
  intros Hdef Hrun k [v Hk]. revert k v Hk. revert Hrun.
  unfold adjustNamespace. apply rangeMut_establishes.
  intros m k v m' Hk Hb k1 v1 Hlk.
  destruct (bool_decide (Namespace k <> "")) eqn:Hd.
  - simplify_eq. destruct (decide (k1 = k)) as [->|Hne]; [|by left].
    right. by apply bool_decide_eq_true in Hd.
  - destruct (meta_Accessor v) as [err|meta]; [done|]. simplify_eq.
    apply lookup_rekeyed in Hlk as [[-> _]|?]; [by right|by left].
Qed.

Lemma clearNamespace_result_cleared (o : desiredSet) (objs res : ObjectByKey) :
  clearNamespace o objs = inr res ->
  forall k, is_Some (res !! k) -> Namespace k = "".
Proof.
  intros Hrun k [v Hk]. revert k v Hk. revert Hrun.
  unfold clearNamespace. apply rangeMut_establishes.
  intros m k v m' Hk Hb k1 v1 Hlk.
  destruct (bool_decide (Namespace k = "")) eqn:Hd.
  - simplify_eq. destruct (decide (k1 = k)) as [->|Hne]; [|by left].
    right. by apply bool_decide_eq_true in Hd.
  - destruct (meta_Accessor v) as [err|meta]; [done|]. simplify_eq.
    apply lookup_rekeyed in Hlk as [[-> _]|?]; [by right|by left].
Qed.

(** X1: when the default namespace is not empty, every key of the map that
    [adjustNamespace] returns carries a namespace, and a second pass over
    that map changes nothing. *)
Theorem adjustNamespace_namespaces_all (o : desiredSet) (gvk : GroupVersionKind)
    (objs res : ObjectByKey) :
  defaultNamespace o <> "" ->
  adjustNamespace o gvk objs = inr res ->
  (forall k, is_Some (res !! k) -> Namespace k <> "") /\
  adjustNamespace o gvk res = inr res.
Proof.
  intros Hdef Hrun.
  pose proof (adjustNamespace_result_namespaced o gvk objs res Hdef Hrun) as Hns.
  split; [done|].
  unfold adjustNamespace. apply rangeMut_unchanged. intros k v Hk.
  by rewrite bool_decide_true by eauto.
Qed.

(** X2: every key of the map that [clearNamespace] returns is without a
    namespace, and a second pass over that map changes nothing. *)
Theorem clearNamespace_clears_all (o : desiredSet) (objs res : ObjectByKey) :
  clearNamespace o objs = inr res ->
  (forall k, is_Some (res !! k) -> Namespace k = "") /\
  clearNamespace o res = inr res.
Proof.
  intros Hrun.
  pose proof (clearNamespace_result_cleared o objs res Hrun) as Hns.
  split; [done|].
  unfold clearNamespace. apply rangeMut_unchanged. intros k v Hk.
  by rewrite bool_decide_true by eauto.
Qed.

Lemma rekey_keeps_keyed (m : ObjectByKey) (k : ObjectKey) (v : Object) (ns : string) :
  keyed_by_metadata m -> m !! k = Some v ->
  exists meta, meta_Accessor v = inr meta /\
    keyed_by_metadata (<[ {| Namespace := ns; Name := Name k |} := SetNamespace ns v ]>
                         (delete k m)).
Proof.
  intros Hm Hk. destruct (Hm k v Hk) as (meta & Hacc & Hkey).
  exists meta. split; [done|]. intros k1 v1 Hlk.
  apply lookup_rekeyed in Hlk as [[-> ->]|[_ Hold]]; [|eauto].
  destruct (meta_Accessor_SetNamespace ns v meta Hacc) as (meta' & Hacc' & Hns & Hname & _).
  exists meta'. split; [done|]. rewrite Hns, Hname. by rewrite Hkey.
Qed.

(** X3: on a map whose keys agree with the metadata of their objects,
    [adjustNamespace] does not fail, and the keys of its result agree with
    the metadata again: the re-keyed objects carry the namespace of their
    new key. *)
Theorem adjustNamespace_keeps_keys_in_step (o : desiredSet) (gvk : GroupVersionKind)
    (objs : ObjectByKey) :
  keyed_by_metadata objs ->
  exists res, adjustNamespace o gvk objs = inr res /\ keyed_by_metadata res.
Proof.
  unfold adjustNamespace. apply rangeMut_total. intros m k v Hm Hk.
  destruct (bool_decide (Namespace k <> "")); [eauto|].
  destruct (rekey_keeps_keyed m k v (defaultNamespace o) Hm Hk) as (meta & -> & Hres).
  eauto.
Qed.

(** X4: on a map whose keys agree with the metadata of their objects,
    [clearNamespace] does not fail, and the keys of its result agree with
    the metadata again. *)
Theorem clearNamespace_keeps_keys_in_step (o : desiredSet) (objs : ObjectByKey) :
  keyed_by_metadata objs ->
  exists res, clearNamespace o objs = inr res /\ keyed_by_metadata res.
Proof.
  unfold clearNamespace. apply rangeMut_total. intros m k v Hm Hk.
  destruct (bool_decide (Namespace k = "")); [eauto|].
  destruct (rekey_keeps_keyed m k v "" Hm Hk) as (meta & -> & Hres).
  eauto.
Qed.

End NormalizerFacts.

(** ** Owner references *)

Section OwnerFacts.
Context `{World} `{!KeyAPI} `{!Collaborators}.

(** The object carries an owner reference with the given UID. *)
Definition has_owner_ref (uid : string) (v : Object) : Prop :=
  exists meta ref, meta_Accessor v = inr meta /\
                   ref ∈ GetOwnerReferences meta /\ or_UID ref = uid.

(** The owner was resolved: its metadata, its kind and its scope. *)
Definition owner_resolved (o : desiredSet) (ownerMeta : ObjectMeta)
    (ownerGVK : GroupVersionKind) (ownerNSed : bool) : Prop :=
  exists own, owner o = Some own /\ meta_Accessor own = inr ownerMeta /\
              gvk_Get own = inr ownerGVK /\
              clients_IsNamespaced ownerGVK = inr ownerNSed.

Lemma assignOwnerReference_resolved o gvk objs ownerMeta ownerGVK ownerNSed :
  owner_resolved o ownerMeta ownerGVK ownerNSed ->
  assignOwnerReference o gvk objs =
    rangeMut (assignOwnerReference_body o gvk ownerGVK ownerMeta ownerNSed) objs.
Proof.
  intros (own & Hown & Hmeta & Hgvk & Hns). unfold assignOwnerReference.
  by rewrite Hown, Hmeta, Hgvk, Hns.
Qed.

(** X5: a namespaced owner is never put on the objects of a cluster-scoped
    kind: [assignOwnerReference] returns the map as it got it. *)
Theorem assignOwnerReference_keeps_scope (o : desiredSet) (gvk : GroupVersionKind)
    (objs : ObjectByKey) (ownerMeta : ObjectMeta) (ownerGVK : GroupVersionKind) :
  owner_resolved o ownerMeta ownerGVK true ->
  clients_IsNamespaced gvk = inr false ->
  assignOwnerReference o gvk objs = inr objs.
Proof.
  intros Hown Hns. rewrite (assignOwnerReference_resolved _ _ _ _ _ _ Hown).
  apply rangeMut_unchanged. intros k v _.
  unfold assignOwnerReference_body. by rewrite Hns.
Qed.

Lemma has_owner_ref_stamped o ownerGVK ownerMeta (v : Object) meta (assignNS : bool) :
  meta_Accessor v = inr meta ->
  let v1 := if assignNS then SetNamespace (GetNamespace ownerMeta) v else v in
  let shouldSet :=
    negb (existsb (fun ref => bool_decide (GetUID ownerMeta = or_UID ref))
                  (GetOwnerReferences meta)) in
  has_owner_ref (GetUID ownerMeta)
    (if shouldSet
     then SetOwnerReferences
            (GetOwnerReferences meta ++ [newOwnerReference o ownerGVK ownerMeta]) v1
     else v1).
Proof.
  intros Hacc v1 shouldSet.
  assert (exists meta1, meta_Accessor v1 = inr meta1 /\
                        GetOwnerReferences meta1 = GetOwnerReferences meta)
    as (meta1 & Hacc1 & Hrefs).
  { unfold v1. destruct assignNS; [|eauto].
    destruct (meta_Accessor_SetNamespace (GetNamespace ownerMeta) v meta Hacc)
      as (meta' & ? & _ & _ & _ & _ & ?). eauto. }
  destruct shouldSet eqn:Hset.
  - destruct v1 as [m1 c1|c1]; [|done]. simpl.
    eexists _, (newOwnerReference o ownerGVK ownerMeta). split; [done|].
    simpl. split; [|done]. apply elem_of_app. right. by left.
  - apply negb_false_iff in Hset. apply Is_true_true, existb_True in Hset.
    apply Exists_exists in Hset as (ref & Hin & Huid).
    apply bool_decide_unpack in Huid.
    exists meta1, ref. rewrite Hrefs. done.
Qed.

(** X6: when the owner and the kind do not differ in scope the way that
    forbids owning, every object of the map that [assignOwnerReference]
    returns carries a reference with the UID of the owner, except the
    objects of a namespaced owner that lie in a namespace other than its
    own. *)
Theorem assignOwnerReference_stamps (o : desiredSet) (gvk : GroupVersionKind)
    (objs res : ObjectByKey) (ownerMeta : ObjectMeta) (ownerGVK : GroupVersionKind)
    (ownerNSed nsed : bool) :
  owner_resolved o ownerMeta ownerGVK ownerNSed ->
  clients_IsNamespaced gvk = inr nsed ->
  (ownerNSed = true -> nsed = true) ->
  assignOwnerReference o gvk objs = inr res ->
  forall k v, res !! k = Some v ->
    (ownerNSed = true /\ Namespace k <> "" /\ Namespace k <> GetNamespace ownerMeta) \/
    has_owner_ref (GetUID ownerMeta) v.
Proof.
  intros Hown Hns Hscope. rewrite (assignOwnerReference_resolved _ _ _ _ _ _ Hown).
  apply rangeMut_establishes. intros m k v m' Hk Hb k1 v1 Hlk.
  unfold assignOwnerReference_body in Hb. rewrite Hns in Hb.
  assert (nsed = true \/ ownerNSed = false) as Hcase.
  { destruct ownerNSed; [left; by apply Hscope|by right]. }
  assert ((let assignNS := nsed && bool_decide (Namespace k = "") in
           let assignOwner :=
             negb (nsed && bool_decide (Namespace k <> "")
                   && bool_decide (Namespace k <> GetNamespace ownerMeta) && ownerNSed) in
           if negb assignOwner then inr m else
           match meta_Accessor v with
           | inl err => inl err
           | inr meta =>
               let v := if assignNS then SetNamespace (GetNamespace ownerMeta) v else v in
               let shouldSet :=
                 negb (existsb (fun ref => bool_decide (GetUID ownerMeta = or_UID ref))
                               (GetOwnerReferences meta)) in
               let v :=
                 if shouldSet
                 then SetOwnerReferences
                        (GetOwnerReferences meta ++ [newOwnerReference o ownerGVK ownerMeta]) v
                 else v in
               let objs := <[k := v]> m in
               if assignNS
               then inr (<[ {| Namespace := GetNamespace ownerMeta; Name := Name k |} := v ]>
                           (delete k objs))
               else inr objs
           end) = inr m') as Hassign.
  { destruct Hcase as [->| ->]; [by destruct ownerNSed|done]. }
  clear Hb. cbv zeta in Hassign.
  destruct (negb (negb _)) eqn:Hforeign.
  - simplify_eq. destruct (decide (k1 = k)) as [->|Hne]; [|by left].
    right. left. simplify_eq. rewrite negb_involutive in Hforeign.
    repeat (apply andb_prop in Hforeign as [Hforeign ?]).
    split_and!; [done|by eapply bool_decide_eq_true..].
  - destruct (meta_Accessor v) as [err|meta] eqn:Hacc; [done|].
    pose proof (has_owner_ref_stamped o ownerGVK ownerMeta v meta
                  (nsed && bool_decide (Namespace k = "")) Hacc) as Href.
    cbv zeta in Href.
    destruct (nsed && bool_decide (Namespace k = "")); simplify_eq.
    + apply lookup_rekeyed in Hlk as [[-> ->]|[Hne Hold]]; [by right; right|].
      rewrite lookup_insert_ne in Hold by done. by left.
    + destruct (decide (k1 = k)) as [->|Hne].
      * rewrite lookup_insert_eq in Hlk. simplify_eq. by right; right.
      * rewrite lookup_insert_ne in Hlk by done. by left.
Qed.

End OwnerFacts.

(** ** The state lister *)

Section ListerFacts.
Context `{World} `{!KeyAPI} `{!Collaborators}.

(** The objects that listing a namespace returns, none when the call
    fails, and the error of the call. *)
Definition namespace_items (client : Client) (selector : Selector) (st : Store)
    (ns : string) : list Object :=
  match client_List client (Some ns) selector st with
  | inr items => items
  | inl _ => []
  end.

Definition namespace_error (client : Client) (selector : Selector) (st : Store)
    (ns : string) : option error :=
  match client_List client (Some ns) selector st with
  | inr _ => None
  | inl err => Some err
  end.

(** The errors of the objects whose metadata cannot be reached. *)
Definition decode_error (obj : Object) : option error :=
  match meta_Accessor obj with
  | inl err => Some err
  | inr _ => None
  end.

(** The namespaces that [list] queries without an informer and without
    an owner to search all namespaces for. *)
Definition queried_namespaces (o : desiredSet) (desiredObjects : ObjectByKey)
    : list string :=
  if bool_decide (listerNamespace o <> "") then [listerNamespace o]
  else ObjectByKey_Namespaces desiredObjects.

(** The fan-out over the namespaces feeds the callback the objects of
    every namespace that could be listed, in order, and returns the error
    of the first namespace that could not. *)
Lemma multiNamespaceList_fused {A} (namespaces : list string) (client : Client)
    (selector : Selector) (appendFn : Object -> A -> A) (acc : A) (st : Store) :
  multiNamespaceList namespaces client selector appendFn acc st =
    (foldl (flip appendFn) acc (namespaces ≫= namespace_items client selector st),
     head (omap (namespace_error client selector st) namespaces)).
Proof.
  unfold multiNamespaceList.
  enough (forall first,
    foldl (fun '(acc, first) namespace =>
             match client_List client (Some namespace) selector st with
             | inl err => (acc, match first with Some _ => first | None => Some err end)
             | inr items => (foldl (flip appendFn) acc items, first)
             end) (acc, first) namespaces =
    (foldl (flip appendFn) acc (namespaces ≫= namespace_items client selector st),
     match first with
     | Some _ => first
     | None => head (omap (namespace_error client selector st) namespaces)
     end)) as Hgen by apply (Hgen None).
  unfold namespace_items, namespace_error.
  revert acc. induction namespaces as [|ns nss IH]; intros acc first; simpl.
  - by destruct first.
  - destruct (client_List client (Some ns) selector st) as [err|items]; simpl.
    + rewrite IH. by destruct first.
    + rewrite IH, foldl_app. by destruct first.
Qed.

Lemma list_appendFn_fold (items : list Object) (acc : ObjectByKey * list error) :
  (foldl (flip list_appendFn) acc items).2 = acc.2 ++ omap decode_error items.
Proof.
  revert acc. induction items as [|obj items IH]; intros [m es]; simpl.
  - by rewrite app_nil_r.
  - rewrite IH. unfold list_appendFn, addObjectToMap, decode_error. simpl.
    destruct (meta_Accessor obj); simpl; [|done]. by rewrite <- app_assoc.
Qed.

Lemma list_appendFn_keeps_keys (items : list Object) (acc : ObjectByKey * list error) k :
  is_Some (acc.1 !! k) -> is_Some ((foldl (flip list_appendFn) acc items).1 !! k).
Proof.
  revert acc. induction items as [|obj items IH]; intros [m es] Hk; simpl; [done|].
  apply IH. unfold list_appendFn, addObjectToMap. simpl.
  destruct (meta_Accessor obj); simpl; [done|].
  rewrite lookup_insert. by case_decide.
Qed.

Lemma list_appendFn_adds (items : list Object) (acc : ObjectByKey * list error) obj meta :
  obj ∈ items -> meta_Accessor obj = inr meta ->
  is_Some ((foldl (flip list_appendFn) acc items).1
             !! {| Namespace := GetNamespace meta; Name := GetName meta |}).
Proof.
  revert acc. induction items as [|obj' items IH]; intros acc Hin Hacc; simpl.
  - by apply elem_of_nil in Hin.
  - apply elem_of_cons in Hin as [<-|Hin]; [|by apply IH].
    apply list_appendFn_keeps_keys. unfold list_appendFn, addObjectToMap.
    rewrite Hacc. simpl. by rewrite lookup_insert_eq.
Qed.

(** What the callback has put into the map came from the objects handed
    to it, under the key of its metadata. *)
Lemma list_appendFn_from_items (items : list Object) (acc : ObjectByKey * list error)
    k obj :
  (foldl (flip list_appendFn) acc items).1 !! k = Some obj ->
  acc.1 !! k = Some obj \/
  (obj ∈ items /\ exists meta, meta_Accessor obj = inr meta /\
                   k = {| Namespace := GetNamespace meta; Name := GetName meta |}).
Proof.
  revert acc. induction items as [|obj' items IH]; intros [m es]; simpl; [by left|].
  intros Hk. apply IH in Hk as [Hk|[Hin Hmeta]].
  - unfold list_appendFn, addObjectToMap in Hk. simpl in Hk.
    destruct (meta_Accessor obj') as [err|meta] eqn:Hacc; simpl in Hk; [by left|].
    rewrite lookup_insert in Hk. case_decide; [|by left].
    simplify_eq. right. split; [by left|eauto].
  - right. split; [by right|done].
Qed.

(** The three ways in which [list] gathers objects. *)
Lemma desiredSet_list_gathered o namespaced informer client selector desiredObjects st :
  exists items err,
    desiredSet_list o namespaced informer client selector desiredObjects st =
      ((foldl (flip list_appendFn) (∅, []) items).1,
       merr_NewErrors (omap decode_error items ++ from_option (fun e => [e]) [] err)) /\
    match informer with
    | Some i =>
        (items, err) = cache_ListAllByNamespace i
                         (if namespaced then listerNamespace o else "") selector st
    | None =>
        if negb (is_nil (owner o)) && bool_decide (listerNamespace o = "")
        then match client_List client None selector st with
             | inr all => items = all /\ err = None
             | inl e => items = [] /\ err = Some e
             end
        else items = queried_namespaces o desiredObjects
                       ≫= namespace_items client selector st /\
             err = head (omap (namespace_error client selector st)
                              (queried_namespaces o desiredObjects))
    end.
Proof.
  assert (forall (items : list Object) (err : option error),
    (let '(objs, errs) := foldl (flip list_appendFn) (∅, []) items in
     (objs, merr_NewErrors (append_err errs err))) =
    ((foldl (flip list_appendFn) (∅, []) items).1,
     merr_NewErrors (omap decode_error items ++ from_option (fun e => [e]) [] err)))
    as Hshape.
  { intros items err.
    pose proof (list_appendFn_fold items (∅, [])) as Herrs.
    destruct (foldl (flip list_appendFn) (∅, []) items) as [objs errs].
    simpl in *. subst errs. destruct err; simpl; [done|]. by rewrite app_nil_r. }
  unfold desiredSet_list. destruct informer as [i|].
  - destruct (cache_ListAllByNamespace i _ selector st) as [items err] eqn:Hc.
    exists items, err. split; [apply Hshape|done].
  - destruct (negb (is_nil (owner o)) && bool_decide (listerNamespace o = "")).
    + unfold allNamespaceList.
      destruct (client_List client None selector st) as [e|all].
      * exists [], (Some e). split; [apply (Hshape [] (Some e))|done].
      * exists all, None. split; [|done].
        pose proof (Hshape all None) as Hs.
        by destruct (foldl (flip list_appendFn) (∅, []) all).
    + rewrite multiNamespaceList_fused. fold (queried_namespaces o desiredObjects).
      eexists _, _. split; [|done].
      pose proof (Hshape (queried_namespaces o desiredObjects
                            ≫= namespace_items client selector st)
                         (head (omap (namespace_error client selector st)
                                     (queried_namespaces o desiredObjects)))) as Hs.
      by destruct (foldl (flip list_appendFn) (∅, []) _).
Qed.

(** X7: every object of the map that [list] returns sits under the
    namespace and name of its own metadata; an object whose metadata cannot
    be reached is never in the map. *)
Theorem desiredSet_list_keys_objects_by_metadata (o : desiredSet) (namespaced : bool)
    (informer : option Informer) (client : Client) (selector : Selector)
    (desiredObjects : ObjectByKey) (st : Store) :
  keyed_by_metadata
    (desiredSet_list o namespaced informer client selector desiredObjects st).1.
Proof.
  destruct (desiredSet_list_gathered o namespaced informer client selector
              desiredObjects st) as (items & err & -> & _).
  intros k obj Hk. simpl in Hk.
  apply list_appendFn_from_items in Hk as [Hk|[_ Hmeta]]; [|done].
  simpl in Hk. by rewrite lookup_empty in Hk.
Qed.

(** X8: when [list] fans out over namespaces (no informer, and no owner or
    a lister namespace), every object with reachable metadata that comes
    back from a namespace that could be listed is in the returned map, also
    when another namespace fails; and the returned error is nil exactly when
    every queried namespace could be listed and the metadata of every
    returned object could be reached. *)
Theorem desiredSet_list_fan_out_is_partial (o : desiredSet) (namespaced : bool)
    (client : Client) (selector : Selector) (desiredObjects : ObjectByKey) (st : Store) :
  owner o = None \/ listerNamespace o <> "" ->
  let listed := desiredSet_list o namespaced None client selector desiredObjects st in
  (forall ns items obj meta,
     ns ∈ queried_namespaces o desiredObjects ->
     client_List client (Some ns) selector st = inr items ->
     obj ∈ items ->
     meta_Accessor obj = inr meta ->
     is_Some (listed.1 !! {| Namespace := GetNamespace meta; Name := GetName meta |})) /\
  (listed.2 = None <->
   forall ns, ns ∈ queried_namespaces o desiredObjects ->
     exists items, client_List client (Some ns) selector st = inr items /\
                   forall obj, obj ∈ items -> exists meta, meta_Accessor obj = inr meta).
Proof.
  intros Hfan listed.
  destruct (desiredSet_list_gathered o namespaced None client selector
              desiredObjects st) as (items & err & Heq & Hitems).
  assert (negb (is_nil (owner o)) && bool_decide (listerNamespace o = "") = false) as Hb.
  { destruct Hfan as [->|Hl]; [done|]. rewrite bool_decide_false by done.
    by rewrite andb_false_r. }
  rewrite Hb in Hitems. destruct Hitems as [-> ->].
  unfold listed. rewrite Heq. simpl. clear Heq listed.
  set (nss := queried_namespaces o desiredObjects).
  split.
  - intros ns items obj meta Hns Hlist Hin Hacc.
    apply (list_appendFn_adds _ _ obj meta); [|done].
    apply list_elem_of_bind. exists ns. split; [|done].
    unfold namespace_items. by rewrite Hlist.
  - assert (forall l : list error, merr_NewErrors l = None <-> l = []) as Hnil.
    { intros [|e l]; simpl; naive_solver. }
    rewrite Hnil. split.
    + intros [Hdec Herr]%app_eq_nil ns Hns.
      destruct (client_List client (Some ns) selector st) as [e|items] eqn:Hlist.
      * exfalso.
        assert (e ∈ omap (namespace_error client selector st) nss) as Hin.
        { apply list_elem_of_omap. exists ns. split; [done|].
          unfold namespace_error. by rewrite Hlist. }
        destruct (omap _ nss); [by apply elem_of_nil in Hin|done].
      * exists items. split; [done|]. intros obj Hobj.
        destruct (meta_Accessor obj) as [e|meta] eqn:Hacc; [|eauto]. exfalso.
        assert (e ∈ omap decode_error (nss ≫= namespace_items client selector st))
          as Hin.
        { apply list_elem_of_omap. exists obj. split.
          - apply list_elem_of_bind. exists ns. split; [|done].
            unfold namespace_items. by rewrite Hlist.
          - unfold decode_error. by rewrite Hacc. }
        rewrite Hdec in Hin. by apply elem_of_nil in Hin.
    + intros Hall.
      enough (omap decode_error (nss ≫= namespace_items client selector st) = [] /\
              omap (namespace_error client selector st) nss = []) as [-> ->] by done.
      split.
      * destruct (omap decode_error _) as [|e l] eqn:Hom; [done|]. exfalso.
        assert (e ∈ omap decode_error (nss ≫= namespace_items client selector st))
          as Hin by (rewrite Hom; by left).
        apply list_elem_of_omap in Hin as (obj & Hobj & Hdec).
        apply list_elem_of_bind in Hobj as (ns & Hobj & Hns).
        destruct (Hall ns Hns) as (items & Hlist & Hmeta).
        unfold namespace_items in Hobj. rewrite Hlist in Hobj.
        destruct (Hmeta obj Hobj) as [meta Hacc].
        unfold decode_error in Hdec. by rewrite Hacc in Hdec.
      * destruct (omap (namespace_error client selector st) nss) as [|e l] eqn:Hom;
          [done|]. exfalso.
        assert (e ∈ omap (namespace_error client selector st) nss) as Hin
          by (rewrite Hom; by left).
        apply list_elem_of_omap in Hin as (ns & Hns & Herr).
        destruct (Hall ns Hns) as (items & Hlist & _).
        unfold namespace_error in Herr. by rewrite Hlist in Herr.
Qed.


End ListerFacts.

(** ** More on the set differ and the cross-version filter *)

Lemma nil_of_no_elem {A} (l : list A) : (forall x, x ∉ l) -> l = [].
Proof. destruct l as [|x l]; [done|]. intros Hno. destruct (Hno x). by left. Qed.

Section DifferEdges.
Context `{KeyAPI}.

Lemma sortObjectKeys_nil : sortObjectKeys [] = [].
Proof. reflexivity. Qed.

Lemma sortObjectKeys_length keys : length (sortObjectKeys keys) = length keys.
Proof. by rewrite sortObjectKeys_perm. Qed.

Lemma splitNew_lengths (existingSet newSet : ObjectByKey) :
  length (splitNew existingSet newSet).1 + length (splitNew existingSet newSet).2
    = size newSet.
Proof.
  rewrite splitNew_filter. simpl.
  rewrite <- length_map_to_list, <- (length_fmap fst (map_to_list newSet)).
  generalize ((map_to_list newSet).*1) as l.
  induction l as [|k l IH]; [done|]. rewrite !filter_cons.
  destruct (existingSet !! k) as [v|] eqn:Hk.
  - rewrite decide_False by done. rewrite decide_True by done. simpl. lia.
  - rewrite decide_True by done. rewrite decide_False by (by intros []). simpl. lia.
Qed.

(** X10: [compareSets] accounts for every desired key exactly once, as a
    create or as an update, and the updates and deletes together are no
    more than the existing objects. *)
Theorem compareSets_counts (existingSet newSet : ObjectByKey) :
  let '(toCreate, toDelete, toUpdate) := compareSets existingSet newSet in
  length toCreate + length toUpdate = size newSet /\
  length toUpdate + length toDelete <= size existingSet.
Proof.
  rewrite compareSets_eq, !sortObjectKeys_length. split; [apply splitNew_lengths|].
  rewrite <- length_map_to_list, <- (length_fmap fst (map_to_list existingSet)).
  rewrite <- length_app. apply submseteq_length, NoDup_submseteq.
  - apply NoDup_app. split_and!.
    + apply NoDup_splitNew_update.
    + intros k [Hn _]%elem_of_splitNew_update (obj & _ & Hn' & _)%elem_of_pruneCandidates.
      rewrite Hn' in Hn. by destruct Hn.
    + apply NoDup_pruneCandidates.
  - intros k [[_ He]%elem_of_splitNew_update|(obj & He & _)%elem_of_pruneCandidates]%elem_of_app;
      apply elem_of_keys; eauto.
Qed.

(** X11: when the existing and the desired map have the same keys,
    [compareSets] creates and deletes nothing and updates every key. *)
Theorem compareSets_same_keys (existingSet newSet : ObjectByKey) :
  (forall k, is_Some (existingSet !! k) <-> is_Some (newSet !! k)) ->
  let '(toCreate, toDelete, toUpdate) := compareSets existingSet newSet in
  toCreate = [] /\ toDelete = [] /\ toUpdate ≡ₚ (map_to_list newSet).*1.
Proof.
  intros Hsame. rewrite compareSets_eq.
  assert ((splitNew existingSet newSet).1 = []) as ->.
  { apply nil_of_no_elem. intros k [Hn He]%elem_of_splitNew_create.
    apply Hsame in Hn. rewrite He in Hn. by destruct Hn. }
  assert (pruneCandidates existingSet newSet = []) as ->.
  { apply nil_of_no_elem. intros k (obj & He & Hn & _)%elem_of_pruneCandidates.
    assert (is_Some (newSet !! k)) as Hs by (apply Hsame; eauto).
    rewrite Hn in Hs. by destruct Hs. }
  split_and!; [done..|]. rewrite sortObjectKeys_perm.
  apply NoDup_Permutation.
  - apply NoDup_splitNew_update.
  - apply NoDup_fst_map_to_list.
  - intros k. rewrite elem_of_splitNew_update, elem_of_keys.
    split; [tauto|]. intros Hn. split; [done|]. by apply Hsame.
Qed.

(** X12: against no existing objects [compareSets] creates every desired
    key and updates and deletes nothing; for no desired objects it creates
    and updates nothing and deletes exactly the existing keys whose objects
    are prune-eligible. *)
Theorem compareSets_empty_side (objs : ObjectByKey) :
  (let '(toCreate, toDelete, toUpdate) := compareSets ∅ objs in
   toCreate ≡ₚ (map_to_list objs).*1 /\ toDelete = [] /\ toUpdate = []) /\
  (let '(toCreate, toDelete, toUpdate) := compareSets objs ∅ in
   toCreate = [] /\ toUpdate = [] /\
   forall k, k ∈ toDelete <-> exists obj, objs !! k = Some obj /\ shouldPrune obj = true).
Proof.
  split; rewrite compareSets_eq.
  - assert ((splitNew ∅ objs).2 = []) as ->.
    { apply nil_of_no_elem. intros k [_ He]%elem_of_splitNew_update.
      rewrite lookup_empty in He. by destruct He. }
    assert (pruneCandidates ∅ objs = []) as ->.
    { apply nil_of_no_elem. intros k (obj & He & _)%elem_of_pruneCandidates.
      by rewrite lookup_empty in He. }
    split_and!; [|done..]. rewrite sortObjectKeys_perm.
    apply NoDup_Permutation.
    + apply NoDup_splitNew_create.
    + apply NoDup_fst_map_to_list.
    + intros k. rewrite elem_of_splitNew_create, elem_of_keys, lookup_empty.
      split; [tauto|]. intros Hn. by split.
  - assert ((splitNew objs ∅).1 = []) as ->.
    { apply nil_of_no_elem. intros k [Hn _]%elem_of_splitNew_create.
      rewrite lookup_empty in Hn. by destruct Hn. }
    assert ((splitNew objs ∅).2 = []) as ->.
    { apply nil_of_no_elem. intros k [Hn _]%elem_of_splitNew_update.
      rewrite lookup_empty in Hn. by destruct Hn. }
    split_and!; [done..|]. intros k.
    rewrite elem_of_sortObjectKeys, elem_of_pruneCandidates.
    setoid_rewrite lookup_empty.
    split; [intros (obj & ? & _ & ?)|intros (obj & ? & ?)]; eauto.
Qed.

End DifferEdges.

Section FilterEdges.
Context `{World}.

(** X13: [filterCrossVersion] only removes: what it returns is its input
    with some keys left out and the order kept; filtering its result again
    removes nothing more; and it looks at the group and kind of [gvk] only,
    so that the version under reconciliation makes no difference. *)
Theorem filterCrossVersion_only_removes (o : desiredSet) (gvk : GroupVersionKind)
    (keys : list ObjectKey) :
  filterCrossVersion o gvk keys `sublist_of` keys /\
  filterCrossVersion o gvk (filterCrossVersion o gvk keys) = filterCrossVersion o gvk keys /\
  forall version,
    filterCrossVersion o {| Group := Group gvk; Version := version; Kind := Kind gvk |} keys
      = filterCrossVersion o gvk keys.
Proof.
  split_and!.
  - rewrite filterCrossVersion_filter. apply sublist_filter.
  - rewrite !filterCrossVersion_filter, list_filter_filter.
    apply list_filter_iff. tauto.
  - done.
Qed.

End FilterEdges.

(** ** More on the pipeline and the orchestrator *)

Section PipelineEdges.
Context `{World} `{!KeyAPI} `{!Collaborators}.

(** One run of [createF]: the key is created, or reported, or taken over;
    in each case the store is what the create call left, the plan is
    untouched, and nothing already in the update list, the existing map or
    the error sink is lost. *)
Lemma createF_step o debugID gvk nsed client objs k (w : Work) (s : State) :
  let r := createF o debugID gvk nsed client objs k (w, s) in
  plan r.2 = plan s /\
  store r.2 = match prepareObjectForCreate gvk (objs !! k) with
              | inr obj => (o_create o nsed (Namespace k) client obj (store s)).2
              | inl _ => store s
              end /\
  ((r.1 = w /\ (errs r.2 = errs s \/ exists e, errs r.2 = errs s ++ [e])) \/
   (exists obj, r.1 = {| toUpdate := toUpdate w ++ [k];
                         existing := <[k := obj]> (existing w) |} /\
                errs r.2 = errs s)).
Proof.
  unfold createF.
  destruct (prepareObjectForCreate gvk (objs !! k)) as [err|obj]; simpl.
  { split_and!; [done..|]. left. eauto. }
  destruct (o_create o nsed (Namespace k) client obj (store s)) as [[err|created] st];
    simpl; [|split_and!; [done..|]; left; eauto].
  destruct (IsAlreadyExists err); [|split_and!; [done..|]; left; eauto].
  destruct (o_get o nsed (Namespace k) (Name k) client st) as [gerr|existingObj];
    simpl; split_and!; try done; [left|right]; eauto.
Qed.

(** X14: the create loop sends every key whose object could be prepared
    to the store once, in order, whatever the earlier keys did, and skips
    the create call for the others; reading an occupant back does not change
    the store, and the plan is not touched. *)
Theorem create_loop_store (o : desiredSet) (debugID : string) (gvk : GroupVersionKind)
    (nsed : bool) (client : Client) (objs : ObjectByKey)
    (toCreate : list ObjectKey) (w : Work) (s : State) :
  let r := foldl (fun ws k => createF o debugID gvk nsed client objs k ws)
                 (w, s) toCreate in
  store r.2 =
    foldl (fun st k =>
             match prepareObjectForCreate gvk (objs !! k) with
             | inr obj => (o_create o nsed (Namespace k) client obj st).2
             | inl _ => st
             end)
          (store s) toCreate /\
  plan r.2 = plan s.
Proof.
  revert w s. induction toCreate as [|k keys IH]; intros w s; cbv zeta; cbn [foldl]; [done|].
  destruct (createF o debugID gvk nsed client objs k (w, s)) as [w1 s1] eqn:Hstep.
  pose proof (createF_step o debugID gvk nsed client objs k w s) as (Hplan & Hstore & _).
  rewrite Hstep in Hplan, Hstore. simpl in Hplan, Hstore.
  destruct (IH w1 s1) as [IHstore IHplan]. cbv zeta in IHstore, IHplan.
  rewrite IHstore, IHplan, Hstore. done.
Qed.

(** The create loop keeps what the update loop relies on, and every key
    of the create list adds at most one entry, to the update list or to the
    error sink. *)
Lemma create_loop_invariant (o : desiredSet) (debugID : string)
    (gvk : GroupVersionKind) (nsed : bool) (client : Client) (objs : ObjectByKey)
    (toCreate : list ObjectKey) (w : Work) (s : State) :
  (forall k, k ∈ toUpdate w -> is_Some (existing w !! k)) ->
  let r := foldl (fun ws k => createF o debugID gvk nsed client objs k ws)
                 (w, s) toCreate in
  (forall k, k ∈ toUpdate r.1 -> is_Some (existing r.1 !! k)) /\
  toUpdate w `prefix_of` toUpdate r.1 /\
  (forall k, k ∈ toUpdate r.1 -> k ∈ toUpdate w \/ k ∈ toCreate) /\
  errs s `prefix_of` errs r.2 /\
  length (toUpdate r.1) + length (errs r.2)
    <= length (toUpdate w) + length (errs s) + length toCreate.
Proof.
  revert w s. induction toCreate as [|k keys IH]; intros w s Hw; cbv zeta; cbn [foldl].
  { simpl. split_and!; try done; [by left|lia]. }
  destruct (createF o debugID gvk nsed client objs k (w, s)) as [w1 s1] eqn:Hstep.
  pose proof (createF_step o debugID gvk nsed client objs k w s) as (_ & _ & Hcases).
  rewrite Hstep in Hcases. simpl in Hcases.
  assert ((forall k', k' ∈ toUpdate w1 -> is_Some (existing w1 !! k')) /\
          toUpdate w `prefix_of` toUpdate w1 /\
          (forall k', k' ∈ toUpdate w1 -> k' ∈ toUpdate w \/ k' = k) /\
          errs s `prefix_of` errs s1 /\
          length (toUpdate w1) + length (errs s1)
            <= length (toUpdate w) + length (errs s) + 1)
    as (Hw1 & Hpre & Hfrom & Herrs & Hlen).
  { destruct Hcases as [[-> Herr]|(obj & -> & ->)]; simpl.
    - split_and!; try done; eauto.
      + destruct Herr as [->|[e ->]]; [done|]. by apply prefix_app_r.
      + destruct Herr as [->|[e ->]]; [lia|]. rewrite length_app. simpl. lia.
    - split_and!; try done.
      + intros k' [Hin|Hin%list_elem_of_singleton]%elem_of_app.
        * rewrite lookup_insert. case_decide; [done|]. by apply Hw.
        * subst k'. by rewrite lookup_insert_eq.
      + by apply prefix_app_r.
      + intros k' [Hin|Hin%list_elem_of_singleton]%elem_of_app; eauto.
      + rewrite length_app. simpl. lia. }
  destruct (IH w1 s1 Hw1) as (IH1 & IH2 & IH3 & IH4 & IH5).
  cbv zeta in IH1, IH2, IH3, IH4, IH5.
  split_and!; try done.
  - by etrans.
  - intros k' Hk'. destruct (IH3 k' Hk') as [Hin|Hin]; [|right; by right].
    destruct (Hfrom k' Hin) as [?| ->]; [by left|right; by left].
  - by etrans.
  - simpl. lia.
Qed.

(** X15: in the update loop that [process] runs after its create loop,
    every key has both an existing and a desired object, so that the
    comparison step is never handed a nil object: the update list is the one
    [compareSets] computed, followed by keys of the create list that were
    taken over.  No error reported before the create loop is lost, and every
    key of the create list adds at most one entry, to the update list or to
    the error sink, never to both. *)
Theorem update_list_has_both_objects (o : desiredSet) (debugID : string)
    (gvk : GroupVersionKind) (nsed : bool) (client : Client)
    (objs existingSet : ObjectByKey) (s : State) :
  let '(toCreate, _, toUpdate0) := compareSets existingSet objs in
  let r := foldl (fun ws k => createF o debugID gvk nsed client objs k ws)
                 ({| toUpdate := toUpdate0; existing := existingSet |}, s) toCreate in
  (forall k, k ∈ toUpdate r.1 ->
     is_Some (existing r.1 !! k) /\ is_Some (objs !! k)) /\
  toUpdate0 `prefix_of` toUpdate r.1 /\
  errs s `prefix_of` errs r.2 /\
  length (toUpdate r.1) + length (errs r.2)
    <= length toUpdate0 + length (errs s) + length toCreate.
Proof.
  rewrite compareSets_eq.
  set (toCreate := sortObjectKeys (splitNew existingSet objs).1).
  set (toUpdate0 := sortObjectKeys (splitNew existingSet objs).2).
  assert (forall k, k ∈ toUpdate0 -> is_Some (objs !! k) /\ is_Some (existingSet !! k))
    as Hu.
  { intros k. unfold toUpdate0.
    by rewrite elem_of_sortObjectKeys, elem_of_splitNew_update. }
  assert (forall k, k ∈ toCreate -> is_Some (objs !! k)) as Hc.
  { intros k. unfold toCreate.
    rewrite elem_of_sortObjectKeys, elem_of_splitNew_create. tauto. }
  intros r.
  destruct (create_loop_invariant o debugID gvk nsed client objs toCreate
              {| toUpdate := toUpdate0; existing := existingSet |} s)
    as (Hex & Hpre & Hfrom & Herrs & Hlen).
  { intros k Hk. by apply Hu. }
  fold r in Hex, Hpre, Hfrom, Herrs, Hlen. simpl in Hpre, Hfrom, Hlen.
  split_and!; try done.
  intros k Hk. split; [by apply Hex|].
  destruct (Hfrom k Hk) as [Hin|Hin]; [by apply Hu|by apply Hc].
Qed.

(** X16: the delete loop sends every key to the store once, in order,
    also after a delete has failed; it reports at most one error per key,
    loses none, and does not touch the plan. *)
Theorem delete_loop_attempts_all (o : desiredSet) (debugID : string)
    (gvk : GroupVersionKind) (nsed : bool) (client : Client) (force : bool)
    (toDelete : list ObjectKey) (s : State) :
  let r := foldl (fun s k => deleteF o debugID gvk nsed client k force s) s toDelete in
  store r =
    foldl (fun st k => (o_delete o nsed (Namespace k) (Name k) client force gvk st).2)
          (store s) toDelete /\
  plan r = plan s /\
  errs s `prefix_of` errs r /\
  length (errs r) <= length (errs s) + length toDelete.
Proof.
  revert s. induction toDelete as [|k keys IH]; intros s; cbv zeta; cbn [foldl].
  { simpl. split_and!; try done. lia. }
  destruct (IH (deleteF o debugID gvk nsed client k force s)) as (IH1 & IH2 & IH3 & IH4).
  cbv zeta in IH1, IH2, IH3, IH4.
  assert (store (deleteF o debugID gvk nsed client k force s) =
            (o_delete o nsed (Namespace k) (Name k) client force gvk (store s)).2 /\
          plan (deleteF o debugID gvk nsed client k force s) = plan s /\
          errs s `prefix_of` errs (deleteF o debugID gvk nsed client k force s) /\
          length (errs (deleteF o debugID gvk nsed client k force s))
            <= length (errs s) + 1) as (Hst & Hpl & Hpre & Hlen).
  { unfold deleteF.
    destruct (o_delete o nsed (Namespace k) (Name k) client force gvk (store s))
      as [[err|] st]; simpl; split_and!; try done; try lia.
    - by apply prefix_app_r.
    - rewrite length_app. simpl. lia. }
  rewrite IH1, IH2, Hst, Hpl. split_and!; try done; [by etrans|simpl; lia].
Qed.


(** X18: a run without an owner, an informer, a lister namespace or a
    plan, for an empty desired set, queries no namespace and changes
    nothing: what such a set created before is not found, and so not
    deleted. *)
Theorem process_ownerless_empty_is_noop (o : desiredSet) (debugID : string)
    (set : Selector) (gvk : GroupVersionKind) (s : State)
    (client : Client) (nsed : bool) :
  getControllerAndClient o debugID gvk = inr (None, client) ->
  clients_IsNamespaced gvk = inr nsed ->
  negb nsed && restrictClusterScoped o = false ->
  owner o = None ->
  listerNamespace o = "" ->
  createPlan o = false ->
  process o debugID set gvk ∅ s = s.
Proof.
  intros Hcc Hns Hscope Hown Hlister Hplan.
  assert (prepared o debugID gvk ∅ None client nsed ∅) as Hprep.
  { split_and!; try done. exists ∅. rewrite Hown, andb_false_r. split; [done|].
    by destruct nsed. }
  rewrite (process_prepared _ _ _ _ _ _ _ _ _ _ Hprep).
  unfold desiredSet_list. rewrite Hown, Hlister. simpl.
  unfold processExisting. rewrite Hplan. done.
Qed.

(** X19: [getControllerAndClient] fails with the error of the client
    lookup, with the wrapped error of the informer factory, or, under strict
    caching only, with the wrapped [ErrNoInformerFound]; when it succeeds
    the client is the looked-up one and, under strict caching, there is an
    informer. *)
Theorem getControllerAndClient_outcome (o : desiredSet) (debugID : string)
    (gvk : GroupVersionKind) :
  match getControllerAndClient o debugID gvk with
  | inr (informer, client) =>
      clients_client gvk = inr client /\
      (strictCaching o = true -> is_Some informer)
  | inl err =>
      clients_client gvk = inl err \/
      (exists factory ferr,
         informerFactory o = Some factory /\
         informerFactory_Get factory gvk (clients_gvr gvk) = inl ferr /\
         err = ErrWrap ferr (FailedInformer gvk debugID)) \/
      (strictCaching o = true /\
       err = ErrWrap ErrNoInformerFound (FailedFindInformer gvk debugID))
  end.
Proof.
  unfold getControllerAndClient.
  destruct (clients_client gvk) as [err|client]; [by left|].
  set (informer := match pruneTypes o !! gvk with
                   | Some informer => informer
                   | None => a_informers o !! gvk
                   end).
  destruct informer as [i|]; simpl.
  { split; [done|]. eauto. }
  destruct (informerFactory o) as [factory|] eqn:Hf.
  - destruct (informerFactory_Get factory gvk (clients_gvr gvk)) as [ferr|[i|]] eqn:Hget;
      simpl.
    + right. left. eauto.
    + split; [done|]. eauto.
    + destruct (strictCaching o); simpl; [by right; right|]. by split.
  - simpl. destruct (strictCaching o); simpl; [by right; right|]. by split.
Qed.

(** X20: the keys that [process] works with after its normalizer match
    the scope of the kind: for a namespaced kind with a default namespace
    every desired key carries a namespace, for a cluster-scoped kind none
    does. *)
Theorem prepared_keys_match_scope (o : desiredSet) (debugID : string)
    (gvk : GroupVersionKind) (objs : ObjectByKey) (controller : option Informer)
    (client : Client) (nsed : bool) (objs' : ObjectByKey) :
  prepared o debugID gvk objs controller client nsed objs' ->
  forall k, is_Some (objs' !! k) ->
    if nsed then defaultNamespace o <> "" -> Namespace k <> "" else Namespace k = "".
Proof.
  intros (_ & _ & _ & owned & _ & Hnorm) k Hk. destruct nsed.
  - intros Hdef. by eapply adjustNamespace_result_namespaced.
  - by eapply clearNamespace_result_cleared.
Qed.

(** X21: every key that is left on the delete list after the
    cross-version filter is the key of an existing, prune-eligible object
    that is desired neither in the map under reconciliation nor, in any
    version of the kind, in the overall collection. *)
Theorem delete_list_spares_desired (o : desiredSet) (gvk : GroupVersionKind)
    (existingSet objs0 : ObjectByKey) :
  let '(_, toDelete, _) := compareSets existingSet objs0 in
  forall k, k ∈ filterCrossVersion o gvk toDelete ->
    (exists obj, existingSet !! k = Some obj /\ shouldPrune obj = true) /\
    objs0 !! k = None /\
    ~ desired_in_version (fun _ => True) (objs o) gvk k.
Proof.
  rewrite compareSets_eq. intros k. rewrite filterCrossVersion_filter.
  intros [Hkeep Hin]%list_elem_of_filter.
  apply elem_of_sortObjectKeys, elem_of_pruneCandidates in Hin
    as (obj & He & Hn & Hp).
  split_and!; [eauto|done|tauto].
Qed.

End PipelineEdges.

(** ** The further properties on the in-memory store *)

Lemma keyed_by_metadata_empty : keyed_by_metadata ∅.
Proof. intros k v Hk. by rewrite lookup_empty in Hk. Qed.

Lemma keyed_by_metadata_insert (m : ObjectByKey) (v : Object) (meta : ObjectMeta) :
  meta_Accessor v = inr meta ->
  keyed_by_metadata m ->
  keyed_by_metadata (<[ {| Namespace := GetNamespace meta; Name := GetName meta |} := v ]> m).
Proof.
  intros Hacc Hm k v' Hk. rewrite lookup_insert in Hk. case_decide; [|eauto].
  simplify_eq. eauto.
Qed.

(** A set owned by an object of namespace [ns1]. *)
Module OwnedFixture.

Definition ownerMeta : ObjectMeta :=
  {| GetNamespace := "ns1"; GetName := "owner"; GetUID := "uid-1";
     GetLabels := ∅; GetOwnerReferences := [] |}.

Definition ownerObject : Object := MetaObject ownerMeta "".

Definition owned (desired : ObjectSet) : @desiredSet Fixture.world :=
  {| a_informers := ∅; owner := Some ownerObject; setOwnerReference := true;
     ownerReferenceController := true; ownerReferenceBlock := true;
     defaultNamespace := "default"; listerNamespace := "";
     strictCaching := false; restrictClusterScoped := false;
     pruneTypes := ∅; patchers := ∅; reconcilers := ∅;
     informerFactory := None; objs := desired; createPlan := false |}.

(** A cluster-scoped kind. *)
Definition namespaceKind : GroupVersionKind :=
  {| Group := ""; Version := "v1"; Kind := "Namespace" |}.

(** An object without a namespace and one in a namespace that is not the
    owner's. *)
Definition e : Object := Fixture.object "" "e" ∅ "E".
Definition x : Object := Fixture.object "other" "x" ∅ "X".

Definition mixed : ObjectByKey :=
  <[ Fixture.key "ns1" "a" := Fixture.a ]>
    (<[ Fixture.key "" "e" := e ]> (<[ Fixture.key "other" "x" := x ]> ∅)).

End OwnedFixture.

Section MoreScenarios.
Import Fixture OwnedFixture.
#[local] Existing Instance world.
#[local] Existing Instance keyAPI.
#[local] Existing Instance collaborators.

(** X1 (witness): the unqualified [e] moves to the default namespace. *)
Lemma adjustNamespace_namespaces_all_witness :
  let o := ownerless ∅ false in
  let res : ObjectByKey :=
    {[ key "ns1" "a" := a; key "default" "e" := object "default" "e" ∅ "E";
       key "other" "x" := x ]} in
  defaultNamespace o <> "" /\
  adjustNamespace o configMap mixed = inr res /\
  (forall k, is_Some (res !! k) -> Namespace k <> "") /\
  adjustNamespace o configMap res = inr res.
Proof.
  intros o res.
  assert (defaultNamespace o <> "") as Hdef by done.
  assert (adjustNamespace o configMap mixed = inr res) as Hrun
    by (vm_compute; reflexivity).
  exact (conj Hdef (conj Hrun
           (adjustNamespace_namespaces_all o configMap mixed res Hdef Hrun))).
Defined.

(** X2 (witness): every namespace is stripped. *)
Lemma clearNamespace_clears_all_witness :
  let o := ownerless ∅ false in
  let res : ObjectByKey :=
    {[ key "" "a" := object "" "a" ∅ "A"; key "" "e" := e;
       key "" "x" := object "" "x" ∅ "X" ]} in
  clearNamespace o mixed = inr res /\
  (forall k, is_Some (res !! k) -> Namespace k = "") /\
  clearNamespace o res = inr res.
Proof.
  intros o res.
  assert (clearNamespace o mixed = inr res) as Hrun by (vm_compute; reflexivity).
  exact (conj Hrun (clearNamespace_clears_all o mixed res Hrun)).
Defined.

Lemma mixed_keyed : keyed_by_metadata mixed.
Proof.
  unfold mixed.
  apply (keyed_by_metadata_insert _ a _ eq_refl).
  apply (keyed_by_metadata_insert _ e _ eq_refl).
  apply (keyed_by_metadata_insert _ x _ eq_refl).
  apply keyed_by_metadata_empty.
Qed.

(** X3 (witness). *)
Lemma adjustNamespace_keeps_keys_in_step_witness :
  let o := ownerless ∅ false in
  keyed_by_metadata mixed /\
  exists res, adjustNamespace o configMap mixed = inr res /\ keyed_by_metadata res.
Proof.
  intros o.
  exact (conj mixed_keyed (adjustNamespace_keeps_keys_in_step o configMap mixed mixed_keyed)).
Defined.

(** X4 (witness). *)
Lemma clearNamespace_keeps_keys_in_step_witness :
  let o := ownerless ∅ false in
  keyed_by_metadata mixed /\
  exists res, clearNamespace o mixed = inr res /\ keyed_by_metadata res.
Proof.
  intros o.
  exact (conj mixed_keyed (clearNamespace_keeps_keys_in_step o mixed mixed_keyed)).
Defined.

Lemma owned_resolved (desired : ObjectSet) :
  owner_resolved (owned desired) ownerMeta configMap true.
Proof. exists ownerObject. split_and!; reflexivity. Qed.

(** X5 (witness): the owner in [ns1] is not put on a cluster-scoped
    kind. *)
Lemma assignOwnerReference_keeps_scope_witness :
  let o := owned ∅ in
  owner_resolved o ownerMeta configMap true /\
  clients_IsNamespaced namespaceKind = inr false /\
  assignOwnerReference o namespaceKind mixed = inr mixed.
Proof.
  intros o.
  assert (clients_IsNamespaced namespaceKind = inr false) as Hns
    by (vm_compute; reflexivity).
  exact (conj (owned_resolved ∅) (conj Hns
           (assignOwnerReference_keeps_scope o namespaceKind mixed ownerMeta configMap
              (owned_resolved ∅) Hns))).
Defined.

(** X6 (witness): [ns1/a] and the unqualified [e] get the reference of the
    owner; [other/x] lies in a foreign namespace. *)
Lemma assignOwnerReference_stamps_witness :
  let o := owned ∅ in
  let res := match assignOwnerReference o configMap mixed with
             | inr res => res
             | inl _ => ∅
             end in
  owner_resolved o ownerMeta configMap true /\
  clients_IsNamespaced configMap = inr true /\
  (true = true -> true = true) /\
  assignOwnerReference o configMap mixed = inr res /\
  is_Some (res !! key "ns1" "e") /\
  forall k v, res !! k = Some v ->
    (true = true /\ Namespace k <> "" /\ Namespace k <> GetNamespace ownerMeta) \/
    has_owner_ref (GetUID ownerMeta) v.
Proof.
  intros o res.
  assert (clients_IsNamespaced configMap = inr true) as Hns by (vm_compute; reflexivity).
  assert (assignOwnerReference o configMap mixed = inr res) as Hrun
    by (vm_compute; reflexivity).
  assert (is_Some (res !! key "ns1" "e")) as He by (vm_compute; eauto).
  exact (conj (owned_resolved ∅) (conj Hns (conj (fun h => h) (conj Hrun (conj He
           (assignOwnerReference_stamps o configMap mixed res ownerMeta configMap
              true true (owned_resolved ∅) Hns (fun h => h) Hrun)))))).
Defined.

(** X8 (witness): [ns1] is listed although [locked] is not. *)
Lemma desiredSet_list_fan_out_is_partial_witness :
  let o := ownerless {[ configMap := desiredLocked ]} false in
  let listed := desiredSet_list o true None tt tt desiredLocked [c] in
  (owner o = None \/ listerNamespace o <> "") /\
  is_Some (listed.1 !! key "ns1" "c") /\
  listed.2 <> None.
Proof.
  intros o listed.
  assert (owner o = None \/ listerNamespace o <> "") as Hfan by (by left).
  destruct (desiredSet_list_fan_out_is_partial o true tt tt desiredLocked [c] Hfan)
    as [Hin Hnil].
  split; [exact Hfan|]. split.
  - apply (Hin "ns1" [c] c
             {| GetNamespace := "ns1"; GetName := "c"; GetUID := "";
                GetLabels := ∅; GetOwnerReferences := [] |}).
    + vm_compute. apply list_elem_of_In. vm_compute. tauto.
    + vm_compute. reflexivity.
    + by left.
    + reflexivity.
  - intros Hnone. destruct Hnil as [Hall _].
    destruct (Hall Hnone "locked") as (items & Hlist & _); [|by vm_compute in Hlist].
    vm_compute. apply list_elem_of_In. vm_compute. tauto.
Defined.


(** X11 (witness): a changed [ns1/b] against the stored one. *)
Lemma compareSets_same_keys_witness :
  let existingSet : ObjectByKey := {[ key "ns1" "b" := b ]} in
  let newSet : ObjectByKey := {[ key "ns1" "b" := b2 ]} in
  (forall k, is_Some (existingSet !! k) <-> is_Some (newSet !! k)) /\
  (let '(toCreate, toDelete, toUpdate) := compareSets existingSet newSet in
   toCreate = [] /\ toDelete = [] /\ toUpdate ≡ₚ (map_to_list newSet).*1).
Proof.
  intros existingSet newSet.
  assert (forall k, is_Some (existingSet !! k) <-> is_Some (newSet !! k)) as Hsame.
  { intros k. unfold existingSet, newSet. rewrite !lookup_singleton.
    case_decide; split; intros [v Hv]; by eauto. }
  exact (conj Hsame (compareSets_same_keys existingSet newSet Hsame)).
Defined.

(** X18 (witness): the store keeps [ns1/c], which an earlier run of the
    set may have created. *)
Lemma process_ownerless_empty_is_noop_witness :
  let o := ownerless ∅ false in
  let s := start [c] in
  getControllerAndClient o "id" configMap = inr (None, tt) /\
  clients_IsNamespaced configMap = inr true /\
  negb true && restrictClusterScoped o = false /\
  owner o = None /\
  listerNamespace o = "" /\
  createPlan o = false /\
  process o "id" tt configMap ∅ s = s.
Proof.
  intros o s.
  assert (clients_IsNamespaced configMap = inr true) as Hns by (vm_compute; reflexivity).
  exact (conj eq_refl (conj Hns (conj eq_refl (conj eq_refl (conj eq_refl (conj eq_refl
           (process_ownerless_empty_is_noop o "id" tt configMap s tt true
              eq_refl Hns eq_refl eq_refl eq_refl eq_refl))))))).
Defined.

(** X20 (witness): the unqualified [e] is handed on under the default
    namespace. *)
Lemma prepared_keys_match_scope_witness :
  let o := ownerless ∅ false in
  let objs' : ObjectByKey :=
    {[ key "ns1" "a" := a; key "default" "e" := object "default" "e" ∅ "E";
       key "other" "x" := x ]} in
  prepared o "id" configMap mixed None tt true objs' /\
  forall k, is_Some (objs' !! k) -> defaultNamespace o <> "" -> Namespace k <> "".
Proof.
  intros o objs'.
  assert (prepared o "id" configMap mixed None tt true objs') as Hprep.
  { split_and!; try reflexivity. exists mixed. split; [reflexivity|].
    vm_compute. reflexivity. }
  exact (conj Hprep (prepared_keys_match_scope o "id" configMap mixed None tt true objs'
                       Hprep)).
Defined.

End MoreScenarios.
